(** * Sockets skeleton daemon (tssockskel.c): model and properties

    The daemon serves socket operations requested by a peer living on the
    other side of a privilege boundary.  Every interaction with the outside
    (the mutex, the invocation channel, the heap, the TCP/IP stack, the
    objects FIFO, the event source) is a call to code that is not part of
    tssockskel.c, so the functions of the file are embedded as programs of a
    small free monad over those calls.  A program is run against an
    environment that answers the calls, which yields the trace of calls and
    answers; the threads are composed by an interleaving step relation. *)

From stdpp Require Import base numbers list strings.

Open Scope Z_scope.

(** ** 32-bit values *)

(** [uint32_t] values are integers in [0, 2^32); a conversion to [uint32_t]
    wraps. *)
Definition to_uint32 (z : Z) : Z := z mod 2 ^ 32.

(** [(int)x] for a 32-bit [x]: two's complement reinterpretation. *)
Definition to_int (z : Z) : Z :=
  let u := z mod 2 ^ 32 in if u <? 2 ^ 31 then u else u - 2 ^ 32.

Definition NULL : Z := 0.

(** ** Automatic variables whose addresses are stored in a descriptor *)

Inductive local : Type :=
| connect_sockaddr          (* l_connect:      struct sockaddr sockaddr *)
| bind_sockaddr             (* l_bind:         struct sockaddr sockaddr *)
| select_readset            (* l_select:       fd_set readset *)
| select_writeset           (* l_select:       fd_set writeset *)
| select_exceptset          (* l_select:       fd_set exceptset *)
| select_timeout            (* l_select:       struct timeval timeout *)
| getaddrinfo_nodename      (* l_getaddrinfo:  char nodename *)
| getaddrinfo_servname      (* l_getaddrinfo:  char servname *)
| getaddrinfo_hints         (* l_getaddrinfo:  struct addrinfo hints *)
| getaddrinfo_res           (* l_getaddrinfo:  struct addrinfo *res *)
| freeaddrinfo_ai.          (* l_freeaddrinfo: struct addrinfo ai *)

(** ** Constants of the headers *)

(** The constants tssockskel.c takes from tssockskel.h, tsclient.h, errno.h
    and the lwIP headers, the sizes of the types it takes from them, and
    the addresses of its automatic variables.  The only fact used about
    them is that the four request codes differ. *)

Record target : Type := {
  SKEL_REQ_GETOP : Z;
  SKEL_REQ_CPYPRMS : Z;
  SKEL_REQ_PUTRES : Z;
  SKEL_REQ_READY : Z;
  skel_req_distinct :
    NoDup [SKEL_REQ_GETOP; SKEL_REQ_CPYPRMS; SKEL_REQ_PUTRES; SKEL_REQ_READY];
  STUB_OP_SOCKET : Z;
  STUB_OP_CONNECT : Z;
  STUB_OP_CLOSE : Z;
  STUB_OP_RECV : Z;
  STUB_OP_SEND : Z;
  STUB_OP_SELECT : Z;
  STUB_OP_BIND : Z;
  STUB_OP_LISTEN : Z;
  STUB_OP_WRITE : Z;
  STUB_OP_READ : Z;
  STUB_OP_GETADDRINFO : Z;
  STUB_OP_FREEADDRINFO : Z;
  SMC_SVC_BUSY : Z;
  SMC_SVC_NHND : Z;
  TS_HND_DISCOVERY : Z;
  ENOMEM : Z;
  N_SOCKSKEL_THD : nat;
  sizeof_sockaddr : Z;
  sizeof_fd_set : Z;
  sizeof_timeval : Z;
  sizeof_addrinfo : Z;
  sizeof_pointer : Z;
  addr_of : local -> Z
}.

(** Size of the storage behind each automatic variable: [char] is one byte
    by definition of [sizeof]. *)
Definition sizeof_local (T : target) (l : local) : Z :=
  match l with
  | connect_sockaddr | bind_sockaddr => sizeof_sockaddr T
  | select_readset | select_writeset | select_exceptset => sizeof_fd_set T
  | select_timeout => sizeof_timeval T
  | getaddrinfo_nodename | getaddrinfo_servname => 1
  | getaddrinfo_hints | freeaddrinfo_ai => sizeof_addrinfo T
  | getaddrinfo_res => sizeof_pointer T
  end.

(** ** The request descriptor [skel_req_t] *)

(** Modelled from the spec: the declaration of [skel_req_t] (tssockskel.h)
    is missing; §3 and §6 give it an operation code, five generic parameter
    slots, five parallel size fields, a phase/control field and a result
    field, named here as tssockskel.c names them.  All entries are 32-bit
    words.  The arrays are indexed with the literals 0..4 only; they are
    total maps from the index to the entry. *)
Record skel_req_t : Type := {
  req : Z;
  stub_op_code : Z;
  stub_op_result : Z;
  stub_op_p_sz : nat -> Z;
  stub_op_p : nat -> Z
}.

Definition upd (f : nat -> Z) (i : nat) (v : Z) : nat -> Z :=
  fun j => if Nat.eqb j i then v else f j.

Definition set_req (v : Z) (d : skel_req_t) : skel_req_t :=
  {| req := v; stub_op_code := stub_op_code d;
     stub_op_result := stub_op_result d;
     stub_op_p_sz := stub_op_p_sz d; stub_op_p := stub_op_p d |}.

Definition set_result (v : Z) (d : skel_req_t) : skel_req_t :=
  {| req := req d; stub_op_code := stub_op_code d;
     stub_op_result := v;
     stub_op_p_sz := stub_op_p_sz d; stub_op_p := stub_op_p d |}.

Definition set_p_sz (i : nat) (v : Z) (d : skel_req_t) : skel_req_t :=
  {| req := req d; stub_op_code := stub_op_code d;
     stub_op_result := stub_op_result d;
     stub_op_p_sz := upd (stub_op_p_sz d) i v; stub_op_p := stub_op_p d |}.

Definition set_p (i : nat) (v : Z) (d : skel_req_t) : skel_req_t :=
  {| req := req d; stub_op_code := stub_op_code d;
     stub_op_result := stub_op_result d;
     stub_op_p_sz := stub_op_p_sz d; stub_op_p := upd (stub_op_p d) i v |}.

(** ** Calls that leave the file *)

(** The primitives of the TCP/IP stack, with their actual arguments.
    Pointers are addresses. *)
Inductive net_call : Type :=
| N_socket (domain type protocol : Z)
| N_connect (s name namelen : Z)
| N_close (s : Z)
| N_recv (s mem len flags : Z)
| N_send (s dataptr size flags : Z)
| N_select (maxfdp1 readset writeset exceptset timeout : Z)
| N_bind (s name namelen : Z)
| N_listen (s backlog : Z)
| N_write (s dataptr size : Z)
| N_read (s mem len : Z)
| N_getaddrinfo (nodename servname hints res : Z)
| N_freeaddrinfo (ai : Z).

(** An [event X] is a call whose answer has type [X].

    A descriptor is designated by its index [skreqp] in [skel_reqs]; its
    content travels with the designation wherever ownership changes hands
    (pool, mailbox, channel).  [tsInvokeServiceNoYield h skreqp d] passes
    the descriptor with content [d] to the peer, which answers with a status
    and the content it leaves behind.  [tsDiscover] is the same primitive
    called with a service name as parameters area.  [net (N_freeaddrinfo _)]
    returns nothing in C; its answer is never used. *)
Inductive event : Type -> Type :=
| chMtxLock : event unit
| chMtxUnlock : event unit
| tsInvokeServiceNoYield (h : Z) (skreqp : nat) (d : skel_req_t)
    : event (Z * skel_req_t)
| tsDiscover (h : Z) (name : string) : event Z
| chHeapAlloc (size : Z) : event Z
| chHeapFree (p : Z) : event unit
| net (c : net_call) : event Z
| chFifoTakeObjectTimeout : event (nat * skel_req_t)
| chFifoReturnObject (skreqp : nat) (d : skel_req_t) : event unit
| chFifoSendObject (skreqp : nat) (d : skel_req_t) : event unit
| chFifoReceiveObjectTimeout : event (nat * skel_req_t)
| chEvtRegisterMaskWithFlags : event unit
| chEvtWaitAny : event Z
| chEvtGetAndClearFlags : event Z
| assign_tsStubsService (h : Z) : event unit.

(** ** Programs *)

Inductive prog (A : Type) : Type :=
| Ret (a : A)
| Halt (reason : string)
| Vis {X : Type} (e : event X) (k : X -> prog A).

Arguments Ret {A} a.
Arguments Halt {A} reason.
Arguments Vis {A X} e k.

Fixpoint bind {A B : Type} (p : prog A) (f : A -> prog B) : prog B :=
  match p with
  | Ret a => f a
  | Halt reason => Halt reason
  | Vis e k => Vis e (fun x => bind (k x) f)
  end.

#[export] Instance prog_ret : MRet prog := fun A a => Ret a.
#[export] Instance prog_bind : MBind prog := fun A B f p => bind p f.

Definition call {X : Type} (e : event X) : prog X := Vis e Ret.

(** Modelled from the spec: the macro [chDbgAssert] (chdebug.h) is
    missing; after §4.2 and §7 a failed assertion is fatal and terminates
    the system. *)
Definition chDbgAssert (c : bool) (msg : string) : prog unit :=
  if c then Ret tt else Halt msg.

(** ** Running a program *)

(** One call together with its answer. *)
Inductive obs : Type :=
| Obs {X : Type} (e : event X) (x : X).

(** The environment answers a call knowing everything that happened
    before. *)
Definition oracle : Type := forall X : Type, list obs -> event X -> X.

Inductive outcome (A : Type) : Type :=
| Done (a : A)
| Halted (reason : string).

Arguments Done {A} a.
Arguments Halted {A} reason.

Fixpoint run {A : Type} (env : oracle) (p : prog A) (hist : list obs)
  : list obs * outcome A :=
  match p with
  | Ret a => (hist, Done a)
  | Halt reason => (hist, Halted reason)
  | Vis e k => let x := env _ hist e in run env (k x) (hist ++ [Obs e x])
  end.

Definition trace_of {A : Type} (env : oracle) (p : prog A) : list obs :=
  fst (run env p []).

Definition outcome_of {A : Type} (env : oracle) (p : prog A) : outcome A :=
  snd (run env p []).

(** ** The functions of tssockskel.c *)

Section Skel.

Variable T : target.

(** Value of the static [tsStubsService], assigned once by [TsSkelsDaemon]
    before it accepts any operation. *)
Variable tsStubsService : Z.

Definition paramsInFromRemote (skreqp : nat) (d : skel_req_t)
  : prog skel_req_t :=
  let d := set_req (SKEL_REQ_CPYPRMS T) d in
  call chMtxLock;;
  '(r, d) ← call (tsInvokeServiceNoYield tsStubsService skreqp d);
  chDbgAssert (negb (r =? SMC_SVC_BUSY T)) "Unexpected SMC_SVC_BUSY";;
  call chMtxUnlock;;
  mret d.

Definition returnToRemote (skreqp : nat) (d : skel_req_t) (res : Z)
  : prog unit :=
  let d := set_result res d in
  let d := set_req (SKEL_REQ_PUTRES T) d in
  call chMtxLock;;
  '(r, d) ← call (tsInvokeServiceNoYield tsStubsService skreqp d);
  chDbgAssert (negb (r =? SMC_SVC_BUSY T)) "Unexpected SMC_SVC_BUSY";;
  call chMtxUnlock;;
  call (chFifoReturnObject skreqp d).

Definition l_socket (skreqp : nat) (d : skel_req_t) : prog unit :=
  result ← call (net (N_socket (to_int (stub_op_p d 0))
                               (to_int (stub_op_p d 1))
                               (to_int (stub_op_p d 2))));
  returnToRemote skreqp d (to_uint32 result).

Definition l_connect (skreqp : nat) (d : skel_req_t) : prog unit :=
  let s := to_int (stub_op_p d 0) in
  let d := set_p 1 (addr_of T connect_sockaddr) d in
  let socklen := to_int (stub_op_p d 2) in
  d ← paramsInFromRemote skreqp d;
  result ← call (net (N_connect s (addr_of T connect_sockaddr) socklen));
  returnToRemote skreqp d (to_uint32 result).

Definition l_close (skreqp : nat) (d : skel_req_t) : prog unit :=
  result ← call (net (N_close (to_int (stub_op_p d 0))));
  returnToRemote skreqp d (to_uint32 result).

Definition l_recv (skreqp : nat) (d : skel_req_t) : prog unit :=
  let len := stub_op_p d 2 in
  mem ← call (chHeapAlloc len);
  '(result, d) ←
    (if mem =? NULL then mret (ENOMEM T, d)
     else
       result ← call (net (N_recv (to_int (stub_op_p d 0)) mem len
                                  (to_int (stub_op_p d 3))));
       let d := set_p_sz 1 (to_uint32 result) d in
       let d := set_p 1 mem d in
       mret (result, d));
  returnToRemote skreqp d (to_uint32 result);;
  if negb (mem =? NULL) then call (chHeapFree mem) else mret tt.

Definition l_send (skreqp : nat) (d : skel_req_t) : prog unit :=
  let size := stub_op_p d 2 in
  dataptr ← call (chHeapAlloc size);
  '(result, d) ←
    (if dataptr =? NULL then mret (ENOMEM T, d)
     else
       let d := set_p 1 dataptr d in
       d ← paramsInFromRemote skreqp d;
       result ← call (net (N_send (to_int (stub_op_p d 0)) dataptr size
                                  (to_int (stub_op_p d 3))));
       call (chHeapFree dataptr);;
       mret (result, d));
  returnToRemote skreqp d (to_uint32 result).

Definition l_select (skreqp : nat) (d : skel_req_t) : prog unit :=
  let maxfdpl := to_int (stub_op_p d 0) in
  let d := set_p_sz 1 (sizeof_fd_set T) d in
  let d := set_p_sz 2 (sizeof_fd_set T) d in
  let d := set_p_sz 3 (sizeof_fd_set T) d in
  let d := set_p 1 (addr_of T select_readset) d in
  let d := set_p 2 (addr_of T select_writeset) d in
  let d := set_p 3 (addr_of T select_exceptset) d in
  let d := set_p 4 (addr_of T select_timeout) d in
  d ← paramsInFromRemote skreqp d;
  result ← call (net (N_select maxfdpl (addr_of T select_readset)
                               (addr_of T select_writeset)
                               (addr_of T select_exceptset)
                               (addr_of T select_timeout)));
  returnToRemote skreqp d (to_uint32 result).

Definition l_bind (skreqp : nat) (d : skel_req_t) : prog unit :=
  let s := to_int (stub_op_p d 0) in
  let d := set_p 1 (addr_of T bind_sockaddr) d in
  let socklen := to_int (stub_op_p d 2) in
  d ← paramsInFromRemote skreqp d;
  result ← call (net (N_bind s (addr_of T bind_sockaddr) socklen));
  returnToRemote skreqp d (to_uint32 result).

Definition l_listen (skreqp : nat) (d : skel_req_t) : prog unit :=
  let s := to_int (stub_op_p d 0) in
  let backlog := to_int (stub_op_p d 1) in
  result ← call (net (N_listen s backlog));
  returnToRemote skreqp d (to_uint32 result).

Definition l_write (skreqp : nat) (d : skel_req_t) : prog unit :=
  let size := stub_op_p d 2 in
  dataptr ← call (chHeapAlloc size);
  '(result, d) ←
    (if dataptr =? NULL then mret (ENOMEM T, d)
     else
       let d := set_p 1 dataptr d in
       d ← paramsInFromRemote skreqp d;
       result ← call (net (N_write (to_int (stub_op_p d 0)) dataptr size));
       call (chHeapFree dataptr);;
       mret (result, d));
  returnToRemote skreqp d (to_uint32 result).

Definition l_read (skreqp : nat) (d : skel_req_t) : prog unit :=
  let len := stub_op_p d 2 in
  mem ← call (chHeapAlloc len);
  '(result, d) ←
    (if mem =? NULL then mret (ENOMEM T, d)
     else
       result ← call (net (N_read (to_int (stub_op_p d 0)) mem len));
       let d := set_p_sz 1 (to_uint32 result) d in
       let d := set_p 1 mem d in
       mret (result, d));
  returnToRemote skreqp d (to_uint32 result);;
  if negb (mem =? NULL) then call (chHeapFree mem) else mret tt.

Definition l_getaddrinfo (skreqp : nat) (d : skel_req_t) : prog unit :=
  let d := set_p 0 (addr_of T getaddrinfo_nodename) d in
  let d := set_p 1 (addr_of T getaddrinfo_servname) d in
  let d := set_p 2 (addr_of T getaddrinfo_hints) d in
  let d := set_p_sz 3 (sizeof_pointer T) d in
  let d := set_p 3 (addr_of T getaddrinfo_res) d in
  d ← paramsInFromRemote skreqp d;
  result ← call (net (N_getaddrinfo (addr_of T getaddrinfo_nodename)
                                    (addr_of T getaddrinfo_servname)
                                    (addr_of T getaddrinfo_hints)
                                    (addr_of T getaddrinfo_res)));
  returnToRemote skreqp d (to_uint32 result).

Definition l_freeaddrinfo (skreqp : nat) (d : skel_req_t) : prog unit :=
  let result := 0 in
  let d := set_p 0 (addr_of T freeaddrinfo_ai) d in
  d ← paramsInFromRemote skreqp d;
  call (net (N_freeaddrinfo (addr_of T freeaddrinfo_ai)));;
  returnToRemote skreqp d (to_uint32 result).

(** The [switch] of [TsSockSkelDaemon]; every case ends in [break], the
    default case does nothing. *)
Definition TsSockSkelDaemon_switch (skreqp : nat) (d : skel_req_t)
  : prog unit :=
  let c := stub_op_code d in
  if c =? STUB_OP_SOCKET T then l_socket skreqp d
  else if c =? STUB_OP_CONNECT T then l_connect skreqp d
  else if c =? STUB_OP_CLOSE T then l_close skreqp d
  else if c =? STUB_OP_RECV T then l_recv skreqp d
  else if c =? STUB_OP_SEND T then l_send skreqp d
  else if c =? STUB_OP_SELECT T then l_select skreqp d
  else if c =? STUB_OP_BIND T then l_bind skreqp d
  else if c =? STUB_OP_LISTEN T then l_listen skreqp d
  else if c =? STUB_OP_WRITE T then l_write skreqp d
  else if c =? STUB_OP_READ T then l_read skreqp d
  else if c =? STUB_OP_GETADDRINFO T then l_getaddrinfo skreqp d
  else if c =? STUB_OP_FREEADDRINFO T then l_freeaddrinfo skreqp d
  else mret tt.

(** One turn of the [for] loop of [TsSockSkelDaemon]. *)
Definition TsSockSkelDaemon_iter : prog unit :=
  '(skreqp, d) ← call chFifoReceiveObjectTimeout;
  TsSockSkelDaemon_switch skreqp d.

(** [TsSkelsDaemon] up to its [for] loop.  The answer of the discovery call
    is converted to the service handle and stored in [tsStubsService]; the
    answer of the READY call is dropped.  Returns the handle. *)
Definition TsSkelsDaemon_startup : prog Z :=
  call chEvtRegisterMaskWithFlags;;
  r ← call (tsDiscover (TS_HND_DISCOVERY T) "TsStubsService");
  let h := to_uint32 r in
  call (assign_tsStubsService h);;
  '(skreqp, d) ← call chFifoTakeObjectTimeout;
  let d := set_req (SKEL_REQ_READY T) d in
  '(_, d) ← call (tsInvokeServiceNoYield h skreqp d);
  call (chFifoReturnObject skreqp d);;
  mret h.

(** Head of the outer [for] loop of [TsSkelsDaemon]. *)
Definition TsSkelsDaemon_wait : prog unit :=
  call chEvtWaitAny;;
  call chEvtGetAndClearFlags;;
  mret tt.

(** One turn of the [while (true)] loop of [TsSkelsDaemon]; [false] is the
    [break], taken together with the [chFifoReturnObject] that follows the
    loop. *)
Definition TsSkelsDaemon_poll : prog bool :=
  '(skreqp, d) ← call chFifoTakeObjectTimeout;
  let d := set_req (SKEL_REQ_GETOP T) d in
  call chMtxLock;;
  '(r, d) ← call (tsInvokeServiceNoYield tsStubsService skreqp d);
  chDbgAssert (negb (r =? SMC_SVC_BUSY T)) "Unexpected SMC_SVC_BUSY";;
  call chMtxUnlock;;
  if r =? SMC_SVC_NHND T then
    call (chFifoReturnObject skreqp d);; mret false
  else
    call (chFifoSendObject skreqp d);; mret true.

End Skel.

(** The operation codes that have a case in the [switch]. *)
Definition dispatch_table (T : target) : list Z :=
  [STUB_OP_SOCKET T; STUB_OP_CONNECT T; STUB_OP_CLOSE T; STUB_OP_RECV T;
   STUB_OP_SEND T; STUB_OP_SELECT T; STUB_OP_BIND T; STUB_OP_LISTEN T;
   STUB_OP_WRITE T; STUB_OP_READ T; STUB_OP_GETADDRINFO T;
   STUB_OP_FREEADDRINFO T].

(** The handlers, in the order of the [switch]. *)
Definition handlers (T : target) (h : Z)
  : list (nat -> skel_req_t -> prog unit) :=
  [l_socket T h; l_connect T h; l_close T h; l_recv T h; l_send T h;
   l_select T h; l_bind T h; l_listen T h; l_write T h; l_read T h;
   l_getaddrinfo T h; l_freeaddrinfo T h].

(** The handlers of the operations that have 'in' parameters. *)
Definition handlers_with_in (T : target) (h : Z)
  : list (nat -> skel_req_t -> prog unit) :=
  [l_connect T h; l_bind T h; l_send T h; l_write T h; l_select T h;
   l_getaddrinfo T h; l_freeaddrinfo T h].

(** ** Observations on traces *)

Definition count_if (f : obs -> bool) (tr : list obs) : nat :=
  length (List.filter f tr).

(** An invocation that presents descriptor [skreqp] with request code
    [code]. *)
Definition is_request (code : Z) (skreqp : nat) (o : obs) : bool :=
  match o with
  | Obs (tsInvokeServiceNoYield _ p d) _ =>
      Nat.eqb p skreqp && (req d =? code)
  | _ => false
  end.

Definition is_copy_in (T : target) := is_request (SKEL_REQ_CPYPRMS T).
Definition is_copy_out (T : target) := is_request (SKEL_REQ_PUTRES T).

Definition is_invoke {X : Type} (e : event X) : bool :=
  match e with
  | tsInvokeServiceNoYield _ _ _ | tsDiscover _ _ => true
  | _ => false
  end.

Definition is_invocation (o : obs) : bool :=
  match o with Obs e _ => is_invoke e end.

Definition is_release (skreqp : nat) (o : obs) : bool :=
  match o with
  | Obs (chFifoReturnObject p _) _ => Nat.eqb p skreqp
  | _ => false
  end.

Definition is_any_release (o : obs) : bool :=
  match o with
  | Obs (chFifoReturnObject _ _) _ => true
  | _ => false
  end.

Definition is_net (o : obs) : bool :=
  match o with
  | Obs (net _) _ => true
  | _ => false
  end.

(** The status an invocation was answered with. *)
Definition status_of (o : obs) : option Z :=
  match o with
  | Obs e x =>
      match e in event X return X -> option Z with
      | tsInvokeServiceNoYield _ _ _ => fun x => Some (fst x)
      | tsDiscover _ _ => fun x => Some x
      | _ => fun _ => None
      end x
  end.

Definition answered_busy (T : target) (o : obs) : bool :=
  match status_of o with
  | Some r => r =? SMC_SVC_BUSY T
  | None => false
  end.

Definition is_halted {A : Type} (out : outcome A) : bool :=
  match out with
  | Halted _ => true
  | Done _ => false
  end.

(** A BUSY answer is the last thing that happens, and the run is halted
    by the assertion. *)
Fixpoint busy_is_fatal {A : Type} (T : target) (tr : list obs)
  (out : outcome A) : bool :=
  match tr with
  | [] => true
  | o :: tl =>
      if answered_busy T o then
        match tl, out with
        | [], Halted reason => String.eqb reason "Unexpected SMC_SVC_BUSY"
        | _, _ => false
        end
      else busy_is_fatal T tl out
  end.

(** What happens to descriptor [skreqp] at the end of its service: the
    copy-out invocations that present it, and the releases to the pool (of
    it, or of another descriptor). *)
Inductive mark : Type :=
| M_copy_out
| M_release
| M_release_other.

Definition mark_of (T : target) (skreqp : nat) (o : obs) : option mark :=
  if is_copy_out T skreqp o then Some M_copy_out
  else if is_release skreqp o then Some M_release
  else if is_any_release o then Some M_release_other
  else None.

Definition marks (T : target) (skreqp : nat) (tr : list obs) : list mark :=
  omap (mark_of T skreqp) tr.

(** A heap allocation that returned [NULL]. *)
Definition alloc_failed (o : obs) : bool :=
  match o with
  | Obs e x =>
      match e in event X return X -> bool with
      | chHeapAlloc _ => fun x => x =? NULL
      | _ => fun _ => false
      end x
  end.

(** The calls of [returnToRemote] for descriptor [skreqp] presented as
    [sent], when the peer answers [(r, back)]; [rest] is what the handler
    does after [returnToRemote] has returned. *)
Definition copy_out_calls (T : target) (h : Z) (skreqp : nat)
  (sent : skel_req_t) (r : Z) (back : skel_req_t) (rest : list obs)
  : list obs :=
  [Obs chMtxLock tt; Obs (tsInvokeServiceNoYield h skreqp sent) (r, back)]
  ++ (if r =? SMC_SVC_BUSY T then []
      else [Obs chMtxUnlock tt; Obs (chFifoReturnObject skreqp back) tt]
           ++ rest).

(** The calls of [paramsInFromRemote], likewise; [rest] is what the handler
    does after it has returned. *)
Definition copy_in_calls (T : target) (h : Z) (skreqp : nat)
  (sent : skel_req_t) (r : Z) (back : skel_req_t) (rest : list obs)
  : list obs :=
  [Obs chMtxLock tt; Obs (tsInvokeServiceNoYield h skreqp sent) (r, back)]
  ++ (if r =? SMC_SVC_BUSY T then [] else Obs chMtxUnlock tt :: rest).

(** The service of descriptor [skreqp] by program [p] in the run against
    [env]: the run is halted exactly when an invocation was answered BUSY,
    which then is the last call of the run; a run that is not halted
    presents the descriptor for copy-out once and then releases it once,
    and releases nothing else; a halted run has presented it at most once
    and released nothing. *)
Definition served_once {A : Type} (T : target) (skreqp : nat) (env : oracle)
  (p : prog A) : Prop :=
  busy_is_fatal T (trace_of env p) (outcome_of env p) = true /\
  is_halted (outcome_of env p) = existsb (answered_busy T) (trace_of env p) /\
  match outcome_of env p with
  | Done _ => marks T skreqp (trace_of env p) = [M_copy_out; M_release]
  | Halted _ =>
      marks T skreqp (trace_of env p) = [] \/
      marks T skreqp (trace_of env p) = [M_copy_out]
  end.

(** Progress of the marshalling of one descriptor. *)
Inductive phase : Type :=
| Fresh                     (* nothing copied in yet *)
| CopyingIn                 (* the copy-in invocation has been answered *)
| CopiedIn                  (* paramsInFromRemote has given the mutex back *)
| Called                    (* the stack primitive has returned *)
| Returned (called : bool). (* the copy-out invocation has been answered *)

Definition is_unlock (o : obs) : bool :=
  match o with
  | Obs chMtxUnlock _ => true
  | _ => false
  end.

(** Monitor of the order copy-in, primitive, copy-out for descriptor
    [skreqp].  A copy-in is accepted only at the start; it is complete when
    the mutex taken for it is given back, the last call of
    [paramsInFromRemote]; a primitive is accepted only after a complete
    copy-in; a copy-out only after the primitive, or when nothing was
    copied in or called at all. *)
Definition marshal_step (T : target) (skreqp : nat) (ph : phase) (o : obs)
  : option phase :=
  if is_copy_in T skreqp o then
    match ph with Fresh => Some CopyingIn | _ => None end
  else if is_unlock o then
    match ph with CopyingIn => Some CopiedIn | _ => Some ph end
  else if is_net o then
    match ph with CopiedIn => Some Called | _ => None end
  else if is_copy_out T skreqp o then
    match ph with
    | Fresh => Some (Returned false)
    | Called => Some (Returned true)
    | _ => None
    end
  else Some ph.

Fixpoint marshal_order (T : target) (skreqp : nat) (ph : phase)
  (tr : list obs) : option phase :=
  match tr with
  | [] => Some ph
  | o :: tl =>
      match marshal_step T skreqp ph o with
      | Some ph' => marshal_order T skreqp ph' tl
      | None => None
      end
  end.

(** ** Lock discipline of a program *)

Inductive lock_state : Type :=
| Unlocked      (* the caller does not hold tsStubsServiceMtx *)
| Acquired      (* it holds the mutex and has not invoked yet *)
| Invoked.      (* it holds the mutex and its invocation has returned *)

(** What a call does to the lock state of its thread when the discipline
    allows the call there: the mutex is taken, one invocation is made, the
    mutex is given back, and nothing else happens in between. *)
Definition lock_next {X : Type} (e : event X) (st : lock_state)
  : option lock_state :=
  match e, st with
  | chMtxLock, Unlocked => Some Acquired
  | chMtxLock, _ => None
  | chMtxUnlock, Invoked => Some Unlocked
  | chMtxUnlock, _ => None
  | tsInvokeServiceNoYield _ _ _, Acquired => Some Invoked
  | tsInvokeServiceNoYield _ _ _, _ => None
  | tsDiscover _ _, Acquired => Some Invoked
  | tsDiscover _ _, _ => None
  | _, Unlocked => Some Unlocked
  | _, _ => None
  end.

(** Every invocation on every path of [p] is made under the mutex, taken
    for that invocation alone; [p] ends with the mutex released, unless the
    assertion stopped the system. *)
Fixpoint serialized {A : Type} (st : lock_state) (p : prog A) : Prop :=
  match p with
  | Ret _ => st = Unlocked
  | Halt _ => True
  | Vis e k =>
      match lock_next e st with
      | Some st' => forall x, serialized st' (k x)
      | None => False
      end
  end.

(** The same discipline checked on one trace. *)
Fixpoint serialized_trace (st : lock_state) (tr : list obs) : bool :=
  match tr with
  | [] => true
  | Obs e _ :: tl =>
      match lock_next e st with
      | Some st' => serialized_trace st' tl
      | None => false
      end
  end.

(** A program that never takes or gives back the mutex and never posts to
    or fetches from the mailbox. *)
Definition is_quiet {X : Type} (e : event X) : bool :=
  match e with
  | chMtxLock | chMtxUnlock => false
  | chFifoSendObject _ _ | chFifoReceiveObjectTimeout => false
  | _ => true
  end.

Fixpoint quiet {A : Type} (p : prog A) : Prop :=
  match p with
  | Vis e k => is_quiet e = true /\ forall x, quiet (k x)
  | _ => True
  end.

(** ** The threads together *)

(** Where a thread resumes when the straight-line code it is in ends. *)
Inductive label : Type :=
| L_wait                                  (* TsSkelsDaemon: top of [for] *)
| L_poll                                  (* TsSkelsDaemon: top of [while] *)
| L_worker                                (* TsSockSkelDaemon: top of [for] *)
| L_switch (skreqp : nat) (d : skel_req_t). (* TsSockSkelDaemon: [switch] *)

(** The code from a label to the next one; [h] is the value
    [tsStubsService] has when the thread gets there. *)
Definition block (T : target) (h : Z) (l : label) : prog label :=
  match l with
  | L_wait => TsSkelsDaemon_wait;; mret L_poll
  | L_poll =>
      again ← TsSkelsDaemon_poll T h;
      mret (if again : bool then L_poll else L_wait)
  | L_worker =>
      '(skreqp, d) ← call chFifoReceiveObjectTimeout;
      mret (L_switch skreqp d)
  | L_switch skreqp d => TsSockSkelDaemon_switch T h skreqp d;; mret L_worker
  end.

(** What the threads share. *)
Record glob : Type := {
  mtx : option nat;                  (* owner of tsStubsServiceMtx *)
  service : Z;                       (* tsStubsService *)
  pool : list (nat * skel_req_t);    (* free objects of skel_req_fifo *)
  mbox : list (nat * skel_req_t);    (* mailbox of skel_req_fifo *)
  halted : bool                      (* chSysHalt was called *)
}.

Definition set_mtx (o : option nat) (g : glob) : glob :=
  {| mtx := o; service := service g; pool := pool g; mbox := mbox g;
     halted := halted g |}.
Definition set_service (h : Z) (g : glob) : glob :=
  {| mtx := mtx g; service := h; pool := pool g; mbox := mbox g;
     halted := halted g |}.
Definition set_pool (l : list (nat * skel_req_t)) (g : glob) : glob :=
  {| mtx := mtx g; service := service g; pool := l; mbox := mbox g;
     halted := halted g |}.
Definition set_mbox (l : list (nat * skel_req_t)) (g : glob) : glob :=
  {| mtx := mtx g; service := service g; pool := pool g; mbox := l;
     halted := halted g |}.
Definition set_halted (g : glob) : glob :=
  {| mtx := mtx g; service := service g; pool := pool g; mbox := mbox g;
     halted := true |}.

(** A thread: the rest of its straight-line code, and whether it is inside
    [tsInvokeServiceNoYield] (the call made, the answer not yet there). *)
Record thread : Type := {
  code : prog label;
  incall : bool
}.

Record sys : Type := {
  shared : glob;
  threads : list thread
}.

(** Modelled from the spec: the mutex and the objects FIFO of the kernel
    (chmtx.c, chobjfifos.h) are missing; after §4.1 and §5, taking the
    mutex waits until it is free; taking an object waits
    until the pool has one (any of them may be handed out); the mailbox
    delivers in posting order and fetching waits until it is non-empty.
    [effect i e x g g'] holds when thread [i] can complete call [e] with
    answer [x] in [g], leaving [g']. Heap, stack and event calls are always
    possible with any answer. *)
Definition effect (i : nat) {X : Type} (e : event X)
  : X -> glob -> glob -> Prop :=
  match e in event X return X -> glob -> glob -> Prop with
  | chMtxLock => fun _ g g' => mtx g = None /\ g' = set_mtx (Some i) g
  | chMtxUnlock => fun _ g g' => mtx g = Some i /\ g' = set_mtx None g
  | chFifoTakeObjectTimeout => fun x g g' =>
      exists l1 l2, pool g = l1 ++ x :: l2 /\ g' = set_pool (l1 ++ l2) g
  | chFifoReturnObject p d => fun _ g g' => g' = set_pool ((p, d) :: pool g) g
  | chFifoSendObject p d => fun _ g g' => g' = set_mbox (mbox g ++ [(p, d)]) g
  | chFifoReceiveObjectTimeout => fun x g g' =>
      exists rest, mbox g = x :: rest /\ g' = set_mbox rest g
  | assign_tsStubsService h => fun _ g g' => g' = set_service h g
  | _ => fun _ g g' => g' = g
  end.

(** One step of thread [i].  An invocation takes two steps, the call and
    the return with any answer; every other call takes one.  At the end of
    its straight-line code the thread goes on at the label it computed.  A
    failed assertion halts the system. *)
Definition thread_step (T : target) (i : nat) (g : glob) (t : thread)
  (g' : glob) (t' : thread) : Prop :=
  match code t with
  | Ret l =>
      incall t = false /\ g' = g /\
      t' = {| code := block T (service g) l; incall := false |}
  | Halt _ => g' = set_halted g /\ t' = t
  | Vis e k =>
      if is_invoke e then
        if incall t then
          g' = g /\ exists x, t' = {| code := k x; incall := false |}
        else g' = g /\ t' = {| code := code t; incall := true |}
      else
        incall t = false /\
        exists x, effect i e x g g' /\ t' = {| code := k x; incall := false |}
  end.

Inductive step (T : target) : sys -> sys -> Prop :=
| step_thread i t g' t' s :
    halted (shared s) = false ->
    threads s !! i = Some t ->
    thread_step T i (shared s) t g' t' ->
    step T s {| shared := g'; threads := <[i := t']> (threads s) |}.

Inductive reachable (T : target) (s0 : sys) : sys -> Prop :=
| reachable_refl : reachable T s0 s0
| reachable_step s s' : reachable T s0 s -> step T s s' -> reachable T s0 s'.

Definition zero_req : skel_req_t :=
  {| req := 0; stub_op_code := 0; stub_op_result := 0;
     stub_op_p_sz := fun _ => 0; stub_op_p := fun _ => 0 |}.

(** [tsSkelsDaemonInit]: the FIFO is initialised with the N_SOCKSKEL_THD
    zeroed descriptors of [skel_reqs], then the N_SOCKSKEL_THD workers and
    the one [TsSkelsDaemon] thread are created, in this order. *)
Definition tsSkelsDaemonInit (T : target) : sys :=
  {| shared :=
       {| mtx := None; service := NULL;
          pool := (fun i => (i, zero_req)) <$> seq 0 (N_SOCKSKEL_THD T);
          mbox := []; halted := false |};
     threads :=
       replicate (N_SOCKSKEL_THD T)
         {| code := block T NULL L_worker; incall := false |}
       ++ [ {| code := TsSkelsDaemon_startup T;; mret L_wait;
               incall := false |} ] |}.

(** *** Invariant of the threads

    While [TsSkelsDaemon] is before its [for] loop ([booting]) it neither
    touches the mutex nor posts a descriptor, and every worker still waits
    for its first descriptor.  From then on ([running]) every thread follows
    the lock discipline, and holds the mutex exactly when its lock state
    says so. *)

Definition at_invoke {A : Type} (p : prog A) : bool :=
  match p with
  | Vis e _ => is_invoke e
  | _ => false
  end.

Definition thread_ok (g : glob) (i : nat) (t : thread) : Prop :=
  exists st,
    serialized st (code t) /\
    (st = Unlocked <-> mtx g <> Some i) /\
    (incall t = true -> at_invoke (code t) = true).

Definition worker0 (T : target) : thread :=
  {| code := block T NULL L_worker; incall := false |}.

Definition booting (T : target) (s : sys) : Prop :=
  mtx (shared s) = None /\ mbox (shared s) = [] /\
  exists t,
    threads s = replicate (N_SOCKSKEL_THD T) (worker0 T) ++ [t] /\
    quiet (code t).

Definition running (s : sys) : Prop :=
  forall i t, threads s !! i = Some t -> thread_ok (shared s) i t.

(** Thread [i] changes the ownership of the mutex for itself only. *)
Definition mtx_frame (i : nat) (g g' : glob) : Prop :=
  forall j, j <> i -> (mtx g = Some j <-> mtx g' = Some j).

(** No two threads are inside the invocation primitive at the same
    time. *)
Definition exclusive (s : sys) : Prop :=
  forall i j ti tj,
    threads s !! i = Some ti -> threads s !! j = Some tj ->
    incall ti = true -> incall tj = true -> i = j.

(** ** A sample target and sample environments *)

(** Values for the constants of the headers, chosen for the examples
    below; any values with distinct request codes would do. *)
Definition sample_target : target :=
  {| SKEL_REQ_GETOP := 1; SKEL_REQ_CPYPRMS := 2; SKEL_REQ_PUTRES := 3;
     SKEL_REQ_READY := 4;
     skel_req_distinct := bool_decide_unpack (NoDup [1; 2; 3; 4]) I;
     STUB_OP_SOCKET := 0; STUB_OP_CONNECT := 1; STUB_OP_CLOSE := 2;
     STUB_OP_RECV := 3; STUB_OP_SEND := 4; STUB_OP_SELECT := 5;
     STUB_OP_BIND := 6; STUB_OP_LISTEN := 7; STUB_OP_WRITE := 8;
     STUB_OP_READ := 9; STUB_OP_GETADDRINFO := 10;
     STUB_OP_FREEADDRINFO := 11;
     SMC_SVC_BUSY := -7; SMC_SVC_NHND := -6;
     TS_HND_DISCOVERY := 1; ENOMEM := 12;
     N_SOCKSKEL_THD := 2;
     sizeof_sockaddr := 16; sizeof_fd_set := 8; sizeof_timeval := 16;
     sizeof_addrinfo := 32; sizeof_pointer := 4;
     addr_of := fun l =>
       match l with
       | getaddrinfo_nodename => 0x20003000
       | getaddrinfo_servname => 0x20003001
       | getaddrinfo_hints => 0x20003004
       | getaddrinfo_res => 0x20003024
       | select_writeset => 0x20003008
       | select_exceptset => 0x20003010
       | select_timeout => 0x20003018
       | _ => 0x20003000
       end |}.

(** A request as the peer may leave it in a descriptor: operation [op],
    slots 0..3 and size field 1 given, the rest zero. *)
Definition sample_req (op p0 p1 p2 p3 sz1 : Z) : skel_req_t :=
  {| req := 1; stub_op_code := op; stub_op_result := 0;
     stub_op_p_sz := upd (fun _ => 0) 1 sz1;
     stub_op_p :=
       upd (upd (upd (upd (fun _ => 0) 0 p0) 1 p1) 2 p2) 3 p3 |}.

(** An environment: the heap serves requests of at most [heap_free] bytes
    at address 0x20001000; the stack answers [net_result]; the peer answers
    every invocation with [status] and, when [rewrite] is set, overwrites
    parameter slots 1 and 2 of the descriptor. *)
Definition sample_env (heap_free net_result status : Z) (rewrite : bool)
  : oracle :=
  fun X hist e =>
    match e in event X return X with
    | chMtxLock => tt
    | chMtxUnlock => tt
    | tsInvokeServiceNoYield _ _ d =>
        (status, if rewrite then set_p 1 0xdead (set_p 2 0xbeef d) else d)
    | tsDiscover _ _ => status
    | chHeapAlloc size => if size <=? heap_free then 0x20001000 else NULL
    | chHeapFree _ => tt
    | net _ => net_result
    | chFifoTakeObjectTimeout => (0%nat, zero_req)
    | chFifoReturnObject _ _ => tt
    | chFifoSendObject _ _ => tt
    | chFifoReceiveObjectTimeout => (0%nat, sample_req 99 0 0 0 0 0)
    | chEvtRegisterMaskWithFlags => tt
    | chEvtWaitAny => 1
    | chEvtGetAndClearFlags => 1
    | assign_tsStubsService _ => tt
    end.

(** ** Further observations on traces *)

(** The handlers of the operations without 'in' parameters. *)
Definition handlers_without_in (T : target) (h : Z)
  : list (nat -> skel_req_t -> prog unit) :=
  [l_socket T h; l_close T h; l_recv T h; l_listen T h; l_read T h].

(** The result fields of the copy-out invocations for descriptor
    [skreqp]. *)
Definition delivered (T : target) (skreqp : nat) (tr : list obs) : list Z :=
  omap (fun o =>
          match o with
          | Obs (tsInvokeServiceNoYield _ p d) _ =>
              if Nat.eqb p skreqp && (req d =? SKEL_REQ_PUTRES T)
              then Some (stub_op_result d) else None
          | _ => None
          end) tr.

(** What the primitives of the stack returned. *)
Definition stack_answers (tr : list obs) : list Z :=
  omap (fun o =>
          match o with
          | Obs e x =>
              match e in event X return X -> option Z with
              | net _ => fun x => Some x
              | _ => fun _ => None
              end x
          end) tr.

(** Monitor of the heap: the buffers that are allocated and not freed yet.
    A [chHeapAlloc] that returns a buffer adds it; a [chHeapFree] is
    accepted only for a buffer that is there, and removes it. *)
Definition heap_step (live : list Z) (o : obs) : option (list Z) :=
  match o with
  | Obs e x =>
      match e in event X return X -> option (list Z) with
      | chHeapAlloc _ => fun x =>
          Some (if x =? NULL then live else x :: live)
      | chHeapFree p => fun _ =>
          if existsb (Z.eqb p) live
          then Some (List.filter (fun q => negb (q =? p)) live)
          else None
      | _ => fun _ => Some live
      end x
  end.

Fixpoint heap_after (live : list Z) (tr : list obs) : option (list Z) :=
  match tr with
  | [] => Some live
  | o :: tl =>
      match heap_step live o with
      | Some live' => heap_after live' tl
      | None => None
      end
  end.

(** Monitor of what a function writes into a descriptor: [cur] is the
    content as it was received or as the peer left it at the last
    invocation; whenever the descriptor is handed over (to the peer, to
    the pool, to the mailbox) its content is in relation [R] with [cur]. *)
Fixpoint kept (R : skel_req_t -> skel_req_t -> Prop) (cur : skel_req_t)
  (tr : list obs) : Prop :=
  match tr with
  | [] => True
  | Obs e x :: tl =>
      match e in event X return X -> Prop with
      | tsInvokeServiceNoYield _ _ sent => fun x =>
          R cur sent /\ kept R (snd x) tl
      | chFifoReturnObject _ sent => fun _ => R cur sent /\ kept R sent tl
      | chFifoSendObject _ sent => fun _ => R cur sent /\ kept R sent tl
      | _ => fun _ => kept R cur tl
      end x
  end.

Definition same_code (d d' : skel_req_t) : Prop :=
  stub_op_code d = stub_op_code d'.

Definition same_sizes (d d' : skel_req_t) : Prop :=
  forall i, stub_op_p_sz d i = stub_op_p_sz d' i.

Definition same_slots (d d' : skel_req_t) : Prop :=
  forall i, stub_op_p d i = stub_op_p d' i.

(** The handlers that write no size field. *)
Definition handlers_keeping_sizes (T : target) (h : Z)
  : list (nat -> skel_req_t -> prog unit) :=
  [l_socket T h; l_connect T h; l_close T h; l_send T h; l_bind T h;
   l_listen T h; l_write T h; l_freeaddrinfo T h].

(** ** Who holds a descriptor *)

(** The descriptor a thread holds when it resumes at a label. *)
Definition held_at (l : label) : option nat :=
  match l with
  | L_switch skreqp _ => Some skreqp
  | _ => None
  end.

(** What a call does to the descriptor its thread holds, when the thread
    may make the call: it takes or fetches a descriptor only when it holds
    none; it presents to the peer, releases or posts only the descriptor it
    holds, and holds none after a release or a post. *)
Definition own_next {X : Type} (e : event X) (own : option nat)
  : X -> option (option nat) :=
  match e in event X return X -> option (option nat) with
  | chFifoTakeObjectTimeout | chFifoReceiveObjectTimeout => fun x =>
      match own with
      | None => Some (Some (fst x))
      | Some _ => None
      end
  | chFifoReturnObject p _ | chFifoSendObject p _ => fun _ =>
      if decide (own = Some p) then Some None else None
  | tsInvokeServiceNoYield _ p _ => fun _ =>
      if decide (own = Some p) then Some own else None
  | _ => fun _ => Some own
  end.

(** On every path of [p], started holding [own], every call is one the
    thread may make, and the label [p] ends at holds the descriptor the
    thread holds then, or none. *)
Fixpoint owning (own : option nat) (p : prog label) : Prop :=
  match p with
  | Ret l => held_at l = None \/ held_at l = own
  | Halt _ => True
  | Vis e k =>
      forall x,
        match own_next e own x with
        | Some own' => owning own' (k x)
        | None => False
        end
  end.

(** The descriptors held by the threads. *)
Definition owned (owns : list (option nat)) : list nat := omap id owns.

(** All the places a descriptor can be in: the pool, the mailbox, the
    threads. *)
Definition descriptors (g : glob) (owns : list (option nat)) : list nat :=
  (pool g).*1 ++ (mbox g).*1 ++ owned owns.

(** Every thread follows the ownership discipline for the descriptor it
    holds, and no descriptor of [skel_reqs] is in two places. *)
Definition ownership (T : target) (s : sys) : Prop :=
  exists owns,
    Forall2 (fun own t => owning own (code t)) owns (threads s) /\
    NoDup (descriptors (shared s) owns) /\
    Forall (fun p => (p < N_SOCKSKEL_THD T)%nat) (descriptors (shared s) owns).

(** The descriptor a thread is presenting to the peer. *)
Definition presenting (t : thread) : option nat :=
  match code t with
  | Vis (tsInvokeServiceNoYield _ p _) _ => if incall t then Some p else None
  | _ => None
  end.

(** ** The service handle and the owner of the mutex *)



(** The owner of the mutex is one of the threads. *)
Definition owner_exists (s : sys) : Prop :=
  forall i, mtx (shared s) = Some i -> is_Some (threads s !! i).

(** What a thread is about to do. *)
Inductive action : Type :=
| A_invoke        (* enter or leave tsInvokeServiceNoYield *)
| A_unlock        (* give the mutex back *)
| A_halt          (* stop the system on a failed assertion *)
| A_other.

Definition next_action (t : thread) : action :=
  match code t with
  | Halt _ => A_halt
  | Vis e _ =>
      if is_invoke e then A_invoke
      else match e with
           | chMtxUnlock => A_unlock
           | _ => A_other
           end
  | Ret _ => A_other
  end.

(** * Properties *)

Arguments to_int : simpl never.
Arguments to_uint32 : simpl never.

(** ** Arithmetic of the conversions *)

Lemma to_uint32_range z : 0 <= to_uint32 z < 2 ^ 32.
Proof. unfold to_uint32. apply Z.mod_pos_bound. lia. Qed.

Lemma to_uint32_small z : 0 <= z < 2 ^ 32 -> to_uint32 z = z.
Proof. intros Hz. unfold to_uint32. by apply Z.mod_small. Qed.

(** An [int] stored in a 32-bit field and read back as [int] is itself. *)
Lemma to_int_to_uint32 n : - 2 ^ 31 <= n < 2 ^ 31 -> to_int (to_uint32 n) = n.
Proof.
  intros Hn. unfold to_int, to_uint32. rewrite Z.mod_mod by lia.
  destruct (Z.ltb_spec (n mod 2 ^ 32) (2 ^ 31)) as [Hlt|Hge].
  - destruct (Z.neg_nonneg_cases n) as [Hneg|Hpos].
    + replace (n mod 2 ^ 32) with (n + 2 ^ 32) in Hlt; [lia|].
      apply Z.mod_unique with (q := -1); lia.
    + apply Z.mod_small. lia.
  - destruct (Z.neg_nonneg_cases n) as [Hneg|Hpos].
    + replace (n mod 2 ^ 32) with (n + 2 ^ 32); [lia|].
      apply Z.mod_unique with (q := -1); lia.
    + rewrite Z.mod_small in Hge; lia.
Qed.

(** ** The request codes differ *)

Section Codes.

Variable T : target.

Lemma cpyprms_is_not_putres : (SKEL_REQ_CPYPRMS T =? SKEL_REQ_PUTRES T) = false.
Proof.
  apply Z.eqb_neq. intros Heq. pose proof (skel_req_distinct T) as Hnd.
  rewrite Heq in Hnd. apply NoDup_cons_1_2 in Hnd.
  apply NoDup_cons_1_1 in Hnd. apply Hnd. left.
Qed.

Lemma getop_is_not_putres : (SKEL_REQ_GETOP T =? SKEL_REQ_PUTRES T) = false.
Proof.
  apply Z.eqb_neq. intros Heq. pose proof (skel_req_distinct T) as Hnd.
  rewrite Heq in Hnd. apply NoDup_cons_1_1 in Hnd. apply Hnd.
  right. left.
Qed.

Lemma putres_is_not_cpyprms : (SKEL_REQ_PUTRES T =? SKEL_REQ_CPYPRMS T) = false.
Proof. rewrite Z.eqb_sym. apply cpyprms_is_not_putres. Qed.

End Codes.

(** ** Exploring a program *)

(** One step through the tree of a program, for predicates defined by
    recursion on it. *)
Ltac tree_step :=
  match goal with
  | |- forall _ : unit, _ => intros []
  | |- forall _ : (_ * _)%type, _ => intros [? ?]
  | |- forall _, _ => intro
  | |- _ /\ _ => split
  | |- context [if negb (?a =? ?b) then _ else _] => destruct (Z.eqb_spec a b)
  | |- context [if (?a =? ?b) then _ else _] => destruct (Z.eqb_spec a b)
  | |- _ = _ => reflexivity
  | |- True => exact I
  end.

Ltac tree_all :=
  cbn; unfold chDbgAssert; repeat (tree_step; cbn; unfold chDbgAssert).

(** Use the outcome of the tests already made. *)
Ltac known_tests :=
  repeat match goal with
         | H : (?a =? ?b) = _ |- context [?a =? ?b] => rewrite H
         end.

(** One step through a run against [env]: name the next answer the run
    depends on, or split on the test it is stuck at. *)
Ltac run_step env :=
  match goal with
  | |- context [env unit ?h ?e] => destruct (env unit h e)
  | |- context [match env ?X ?h ?e with _ => _ end] =>
      let r := fresh "r" in
      let back := fresh "back" in
      destruct (env X h e) as [r back] eqn:?
  | |- context [if negb (?a =? ?b) then _ else _] => destruct (a =? b) eqn:?
  | |- context [if (?a =? ?b) then _ else _] => destruct (a =? b) eqn:?
  end.

Ltac run_all env :=
  unfold trace_of, outcome_of; cbn; unfold chDbgAssert;
  repeat (first [progress known_tests | run_step env];
          cbn; unfold chDbgAssert).

(** ** Lock discipline, program by program *)

Lemma serialized_bind {A B : Type} (p : prog A) (f : A -> prog B) st :
  serialized st p -> (forall a, serialized Unlocked (f a)) ->
  serialized st (bind p f).
Proof.
  revert st. induction p as [a|reason|X e k IH]; intros st Hp Hf; cbn in *.
  - subst st. apply Hf.
  - exact I.
  - destruct (lock_next e st); [|done]. intros x. by apply IH.
Qed.

Lemma quiet_bind {A B : Type} (p : prog A) (f : A -> prog B) :
  quiet p -> (forall a, quiet (f a)) -> quiet (bind p f).
Proof.
  induction p as [a|reason|X e k IH]; intros Hp Hf; cbn in *.
  - apply Hf.
  - exact I.
  - destruct Hp as [He Hk]. split; [done|]. intros x. by apply IH.
Qed.

Lemma handlers_serialized T h :
  Forall (fun hd => forall skreqp d, serialized Unlocked (hd skreqp d))
         (handlers T h).
Proof. repeat apply Forall_cons_2; [tree_all..|apply Forall_nil_2]. Qed.

Lemma poll_serialized T h : serialized Unlocked (TsSkelsDaemon_poll T h).
Proof. tree_all. Qed.

Lemma switch_serialized T h skreqp d :
  serialized Unlocked (TsSockSkelDaemon_switch T h skreqp d).
Proof.
  unfold TsSockSkelDaemon_switch.
  repeat case Z.eqb_spec; intros; tree_all.
Qed.

Lemma block_serialized T h l : serialized Unlocked (block T h l).
Proof.
  destruct l; try (tree_all; fail).
  apply serialized_bind; [apply switch_serialized|]. intros; reflexivity.
Qed.

Lemma startup_quiet T : quiet (TsSkelsDaemon_startup T).
Proof. tree_all. Qed.

Lemma marshalling_serialized T h skreqp d res :
  serialized Unlocked (paramsInFromRemote T h skreqp d) /\
  serialized Unlocked (returnToRemote T h skreqp d res).
Proof. tree_all. Qed.

(** The calls of [TsSkelsDaemon] before its loop are the same in every
    run: no mutex call, no assertion, and the status of the READY
    invocation has no influence. *)
Lemma startup_trace T env :
  exists r skreqp d status back,
    trace_of env (TsSkelsDaemon_startup T) =
      [Obs chEvtRegisterMaskWithFlags tt;
       Obs (tsDiscover (TS_HND_DISCOVERY T) "TsStubsService") r;
       Obs (assign_tsStubsService (to_uint32 r)) tt;
       Obs chFifoTakeObjectTimeout (skreqp, d);
       Obs (tsInvokeServiceNoYield (to_uint32 r) skreqp
              (set_req (SKEL_REQ_READY T) d)) (status, back);
       Obs (chFifoReturnObject skreqp back) tt] /\
    outcome_of env (TsSkelsDaemon_startup T) = Done (to_uint32 r).
Proof. run_all env. by repeat eexists. Qed.

(** ** The threads together: the invariant is kept *)

Lemma booting_exclusive T s : booting T s -> exclusive s.
Proof.
  intros (_ & _ & t & Hth & _) i j ti tj Hi Hj Ii Ij.
  rewrite Hth in Hi, Hj.
  assert (Hw : forall k tk,
             (replicate (N_SOCKSKEL_THD T) (worker0 T) ++ [t]) !! k = Some tk ->
             incall tk = true -> k = N_SOCKSKEL_THD T).
  { intros k tk Hk Ik.
    apply lookup_app_Some in Hk as [Hk|[Hlen Hk]].
    - apply lookup_replicate in Hk as [-> _]. discriminate.
    - rewrite length_replicate in Hlen, Hk.
      apply list_lookup_singleton_Some in Hk as [Hk _]. lia. }
  rewrite (Hw i ti), (Hw j tj); done.
Qed.

(** Once the startup is over, a thread inside the invocation primitive
    owns the mutex. *)
Lemma running_invoker_owns_mutex s i t :
  running s -> threads s !! i = Some t -> incall t = true ->
  mtx (shared s) = Some i.
Proof.
  intros Hrun Hi Ii. destruct (Hrun i t Hi) as (st & Hser & Hst & Hat).
  specialize (Hat Ii). destruct (code t) as [|?|X e k]; try discriminate.
  cbn in Hat, Hser.
  destruct (decide (mtx (shared s) = Some i)) as [|Hne]; [done|].
  apply Hst in Hne. subst st. destruct e; discriminate || done.
Qed.

Lemma running_exclusive s : running s -> exclusive s.
Proof.
  intros Hrun i j ti tj Hi Hj Ii Ij.
  pose proof (running_invoker_owns_mutex s i ti Hrun Hi Ii) as H1.
  pose proof (running_invoker_owns_mutex s j tj Hrun Hj Ij) as H2.
  congruence.
Qed.

Lemma thread_step_ok T i g t g' t' :
  thread_ok g i t -> thread_step T i g t g' t' ->
  thread_ok g' i t' /\ mtx_frame i g g'.
Proof.
  intros (st & Hser & Hst & Hat). unfold thread_step.
  destruct t as [p ic]; cbn in *. destruct p as [l|msg|X e k]; cbn in *.
  - intros (-> & -> & ->). subst st. split; [|done].
    exists Unlocked. cbn. split; [apply block_serialized|].
    split; [done|discriminate].
  - intros (-> & ->). split; [|done]. exists st. done.
  - destruct (is_invoke e) eqn:Hinv.
    + destruct ic.
      * intros (-> & x & ->). split; [|done].
        destruct (lock_next e st) as [st'|] eqn:Hnext; [|done].
        assert (st = Acquired /\ st' = Invoked) as [-> ->].
        { destruct e; try discriminate; destruct st; cbn in Hnext;
            by inversion Hnext. }
        exists Invoked. cbn. split; [apply Hser|]. split; [|discriminate].
        split; [discriminate|]. intros Hne. by apply Hst in Hne.
      * intros (-> & ->). split; [|done]. exists st. cbn. done.
    + intros (-> & x & Heff & ->).
      destruct (lock_next e st) as [st'|] eqn:Hnext; [|done].
      specialize (Hser x).
      destruct e; try discriminate; cbn in Heff.
      1: { (* chMtxLock *)
        destruct Heff as [Hfree ->]. destruct st; try discriminate.
        inversion Hnext; subst st'. split.
        - exists Acquired. cbn. split; [done|]. split; [|discriminate].
          split; [discriminate|]. intros Hne. by destruct Hne.
        - intros j Hj. cbn. rewrite Hfree. split; [discriminate|].
          intros [=]. by destruct Hj. }
      1: { (* chMtxUnlock *)
        destruct Heff as [Hown ->]. destruct st; try discriminate.
        inversion Hnext; subst st'. split.
        - exists Unlocked. cbn. split; [done|]. split; [|discriminate]. done.
        - intros j Hj. cbn. rewrite Hown. split; [|discriminate].
          intros [=]. by destruct Hj. }
      all: destruct st; try discriminate; inversion Hnext; subst st'.
      all: assert (mtx g' = mtx g) as Hm
             by (first [ destruct Heff as (? & ? & _ & ->)
                       | destruct Heff as (? & _ & ->)
                       | rewrite Heff ]; reflexivity).
      all: split; [|by intros j _; rewrite Hm].
      all: exists Unlocked; cbn; rewrite Hm; split; [done|];
           split; [|discriminate].
      all: split; [intros _; by apply Hst|done].
Qed.

Lemma running_step T s s' : running s -> step T s s' -> running s'.
Proof.
  intros Hrun Hstep. destruct Hstep as [i t g' t' s _ Hi Hts].
  destruct (thread_step_ok T i _ _ _ _ (Hrun i t Hi) Hts) as [Hok Hframe].
  intros j tj Hj. cbn in *.
  destruct (decide (j = i)) as [->|Hne].
  - rewrite list_lookup_insert_eq in Hj by (by eapply lookup_lt_Some).
    by inversion Hj; subst.
  - rewrite list_lookup_insert_ne in Hj by done.
    destruct (Hrun j tj Hj) as (st & Hser & Hst & Hat).
    exists st. split; [done|]. split; [|done].
    rewrite Hst. specialize (Hframe j Hne). tauto.
Qed.

Lemma quiet_effect i X (e : event X) x g g' :
  is_quiet e = true -> is_invoke e = false -> effect i e x g g' ->
  mtx g' = mtx g /\ mbox g' = mbox g.
Proof.
  intros Hq Hinv Heff. destruct e; try discriminate; cbn in Heff;
    first [ destruct Heff as (? & ? & _ & ->) | rewrite Heff ]; done.
Qed.

Lemma booting_step T s s' :
  booting T s -> step T s s' -> booting T s' \/ running s'.
Proof.
  intros (Hmtx & Hmbox & t0 & Hth & Hq) Hstep.
  destruct Hstep as [i t g' t' s _ Hi Hts]. cbn.
  rewrite Hth in Hi. apply lookup_app_Some in Hi as [Hi|[Hlen Hi]].
  { (* a worker cannot leave chFifoReceiveObjectTimeout: the mailbox is
       empty *)
    apply lookup_replicate in Hi as [-> _]. unfold thread_step in Hts.
    cbn in Hts. destruct Hts as (_ & x & (rest & Hrest & _) & _).
    congruence. }
  rewrite length_replicate in Hlen, Hi.
  apply list_lookup_singleton_Some in Hi as [Hi ->].
  assert (i = N_SOCKSKEL_THD T) as -> by lia. clear Hlen Hi.
  assert (Hins : forall t', <[N_SOCKSKEL_THD T := t']> (threads s) =
                   replicate (N_SOCKSKEL_THD T) (worker0 T) ++ [t']).
  { intros t''. rewrite Hth.
    rewrite insert_app_r_alt by (rewrite length_replicate; lia).
    rewrite length_replicate, Nat.sub_diag. done. }
  rewrite Hins. unfold thread_step in Hts.
  destruct t as [p ic]; cbn in *. destruct p as [l|msg|X e k]; cbn in *.
  - (* the startup code is over: from here on the discipline applies *)
    destruct Hts as (-> & -> & ->). right.
    intros j tj Hj. cbn in Hj.
    assert (tj = worker0 T \/
            tj = {| code := block T (service (shared s)) l;
                    incall := false |}) as Htj.
    { apply lookup_app_Some in Hj as [Hj|[_ Hj]].
      - apply lookup_replicate in Hj as [-> _]. by left.
      - apply list_lookup_singleton_Some in Hj as [_ <-]. by right. }
    exists Unlocked. cbn. rewrite Hmtx.
    destruct Htj as [-> | ->].
    + split; [exact (block_serialized T NULL L_worker)|done].
    + split; [exact (block_serialized T _ l)|done].
  - destruct Hts as (-> & ->). left. cbn. repeat split; [done..|].
    by exists {| code := Halt msg; incall := ic |}.
  - destruct Hq as [Hqe Hqk]. destruct (is_invoke e) eqn:Hinv.
    + destruct ic.
      * destruct Hts as (-> & x & ->). left. repeat split; [done..|].
        eexists; split; [done|]. apply Hqk.
      * destruct Hts as (-> & ->). left. repeat split; [done..|].
        eexists; split; [done|]. cbn. done.
    + destruct Hts as (-> & x & Heff & ->).
      destruct (quiet_effect _ _ _ _ _ _ Hqe Hinv Heff) as [Hm Hb].
      left. unfold booting. cbn. rewrite Hm, Hb. repeat split; [done..|].
      eexists; split; [done|]. apply Hqk.
Qed.

Lemma init_booting T : booting T (tsSkelsDaemonInit T).
Proof.
  repeat split. eexists; split; [reflexivity|].
  apply (quiet_bind (TsSkelsDaemon_startup T)); [apply startup_quiet|done].
Qed.

Lemma reachable_invariant T s :
  reachable T (tsSkelsDaemonInit T) s -> booting T s \/ running s.
Proof.
  induction 1 as [|s s' _ [Hboot|Hrun] Hstep].
  - left. apply init_booting.
  - by eapply booting_step.
  - right. by eapply running_step.
Qed.

Lemma reachable_exclusive T s :
  reachable T (tsSkelsDaemonInit T) s -> exclusive s.
Proof.
  intros [Hboot|Hrun]%reachable_invariant.
  - by eapply booting_exclusive.
  - by apply running_exclusive.
Qed.

(** ** C1: serialisation of the invocation channel *)

(** C1, as stated, fails: [TsSkelsDaemon] makes its discovery and READY
    invocations without taking tsStubsServiceMtx.  The startup code does
    not follow the lock discipline, neither as a program nor on the trace
    of a concrete run, and the system reaches a state where the discovery
    invocation is in flight while nobody owns the mutex. *)
Lemma startup_invokes_without_mutex :
  ~ serialized Unlocked (TsSkelsDaemon_startup sample_target) /\
  serialized_trace Unlocked
    (trace_of (sample_env 0 0 0 false)
       (TsSkelsDaemon_startup sample_target)) = false /\
  exists s t,
    reachable sample_target (tsSkelsDaemonInit sample_target) s /\
    threads s !! 2%nat = Some t /\ incall t = true /\
    mtx (shared s) = None.
Proof.
  split; [|split].
  - cbn. intros H. exact (H tt).
  - reflexivity.
  - eexists _, _. split; [|split; [|split]].
    + eapply reachable_step.
      * eapply reachable_step; [apply reachable_refl|].
        eapply (step_thread _ 2%nat); [reflexivity|reflexivity|].
        cbn. split; [reflexivity|]. exists tt. split; reflexivity.
      * eapply (step_thread _ 2%nat); [reflexivity|reflexivity|].
        cbn. split; reflexivity.
    + reflexivity.
    + reflexivity.
    + reflexivity.
Qed.

(** C1 (amended): every invocation of the copy-in, copy-out and GETOP
    phases is made under tsStubsServiceMtx, taken immediately before and
    given back immediately after that one invocation (on every path of
    [paramsInFromRemote], [returnToRemote], the twelve handlers and the
    polling loop); the discovery and READY invocations of the startup are
    made without the mutex, in straight-line code that neither locks nor
    posts a descriptor; and in every state the threads created by
    [tsSkelsDaemonInit] can reach, no two threads are inside the invocation
    primitive at the same time: either the startup is not over, the
    workers all wait for their first descriptor and nobody owns the mutex,
    or every thread inside the primitive owns the mutex. *)
Theorem invocations_are_exclusive (T : target) :
  (forall h skreqp d res,
      serialized Unlocked (paramsInFromRemote T h skreqp d) /\
      serialized Unlocked (returnToRemote T h skreqp d res)) /\
  (forall h,
      Forall (fun hd => forall skreqp d, serialized Unlocked (hd skreqp d))
             (handlers T h)) /\
  (forall h, serialized Unlocked (TsSkelsDaemon_poll T h)) /\
  (quiet (TsSkelsDaemon_startup T) /\
   forall env,
     count_if is_invocation (trace_of env (TsSkelsDaemon_startup T)) = 2%nat /\
     serialized_trace Unlocked (trace_of env (TsSkelsDaemon_startup T))
       = false) /\
  (forall s,
      reachable T (tsSkelsDaemonInit T) s ->
      exclusive s /\
      (booting T s \/
       forall i t, threads s !! i = Some t -> incall t = true ->
                   mtx (shared s) = Some i)).
Proof.
  split; [|split; [|split; [|split]]].
  - intros. apply marshalling_serialized.
  - apply handlers_serialized.
  - apply poll_serialized.
  - split; [apply startup_quiet|]. intros env.
    destruct (startup_trace T env) as (r & p & d & st & back & -> & _).
    split; reflexivity.
  - intros s Hs. split; [by apply (reachable_exclusive T)|].
    destruct (reachable_invariant T s Hs) as [Hboot|Hrun]; [by left|right].
    intros i t. by apply running_invoker_owns_mutex.
Qed.

(** ** Runs of the handlers *)

Ltac requests_simpl T :=
  unfold marks, mark_of, marshal_step, is_copy_out, is_copy_in, is_request;
  cbn;
  rewrite ?Nat.eqb_refl, ?Z.eqb_refl, ?(cpyprms_is_not_putres T),
    ?(putres_is_not_cpyprms T), ?(getop_is_not_putres T);
  cbn; known_tests; cbn.

Lemma handlers_serve_once T h :
  Forall (fun hd => forall env skreqp d,
            served_once T skreqp env (hd skreqp d))
         (handlers T h).
Proof.
  repeat apply Forall_cons_2; [..|apply Forall_nil_2]; intros env skreqp d.
  all: unfold served_once; run_all env; requests_simpl T.
  all: repeat split; auto.
Qed.

Lemma handler_serves_once T h hd env skreqp d :
  hd ∈ handlers T h -> served_once T skreqp env (hd skreqp d).
Proof.
  intros Hin. pose proof (handlers_serve_once T h) as Hall.
  rewrite Forall_forall in Hall. by apply Hall.
Qed.

Lemma poll_busy_is_fatal T h env :
  busy_is_fatal T (trace_of env (TsSkelsDaemon_poll T h))
                (outcome_of env (TsSkelsDaemon_poll T h)) = true.
Proof. run_all env; reflexivity. Qed.

Lemma marshalling_busy_is_fatal T h env skreqp d res :
  busy_is_fatal T (trace_of env (paramsInFromRemote T h skreqp d))
                (outcome_of env (paramsInFromRemote T h skreqp d)) = true /\
  busy_is_fatal T (trace_of env (returnToRemote T h skreqp d res))
                (outcome_of env (returnToRemote T h skreqp d res)) = true.
Proof. split; run_all env; reflexivity. Qed.

(** ** C6: BUSY is fatal *)

(** C6, as stated, fails on the startup invocations: when the peer answers
    BUSY to the discovery and READY invocations, [TsSkelsDaemon] does not
    stop; it goes on to release the descriptor and reaches its loop, with
    the converted BUSY status as service handle. *)
Lemma startup_ignores_busy :
  let env := sample_env 0 0 (SMC_SVC_BUSY sample_target) false in
  let p := TsSkelsDaemon_startup sample_target in
  busy_is_fatal sample_target (trace_of env p) (outcome_of env p) = false /\
  outcome_of env p = Done (to_uint32 (SMC_SVC_BUSY sample_target)) /\
  count_if (answered_busy sample_target) (trace_of env p) = 2%nat /\
  count_if is_any_release (trace_of env p) = 1%nat.
Proof. repeat split. Qed.

(** C6 (amended): on every copy-in, copy-out and GETOP invocation (in
    [paramsInFromRemote], [returnToRemote], the twelve handlers and the
    polling loop) a BUSY answer makes the assertion stop the system at
    once: it is the last call of the run, nothing is retried.  The two
    startup invocations are not checked: whatever the peer answers, the
    startup code runs to its end, taking the answer of the discovery
    invocation as service handle and dropping the answer of the READY
    invocation. *)
Theorem busy_is_fatal_after_startup (T : target) :
  (forall h env skreqp d res,
      busy_is_fatal T (trace_of env (paramsInFromRemote T h skreqp d))
        (outcome_of env (paramsInFromRemote T h skreqp d)) = true /\
      busy_is_fatal T (trace_of env (returnToRemote T h skreqp d res))
        (outcome_of env (returnToRemote T h skreqp d res)) = true) /\
  (forall h,
      Forall (fun hd => forall env skreqp d,
                busy_is_fatal T (trace_of env (hd skreqp d))
                  (outcome_of env (hd skreqp d)) = true /\
                is_halted (outcome_of env (hd skreqp d))
                  = existsb (answered_busy T) (trace_of env (hd skreqp d)))
             (handlers T h)) /\
  (forall h env,
      busy_is_fatal T (trace_of env (TsSkelsDaemon_poll T h))
        (outcome_of env (TsSkelsDaemon_poll T h)) = true) /\
  (forall env : oracle,
      exists r skreqp d status back,
        trace_of env (TsSkelsDaemon_startup T) =
          [Obs chEvtRegisterMaskWithFlags tt;
           Obs (tsDiscover (TS_HND_DISCOVERY T) "TsStubsService") r;
           Obs (assign_tsStubsService (to_uint32 r)) tt;
           Obs chFifoTakeObjectTimeout (skreqp, d);
           Obs (tsInvokeServiceNoYield (to_uint32 r) skreqp
                  (set_req (SKEL_REQ_READY T) d)) (status, back);
           Obs (chFifoReturnObject skreqp back) tt] /\
        outcome_of env (TsSkelsDaemon_startup T) = Done (to_uint32 r)).
Proof.
  split; [|split; [|split]].
  - intros. apply marshalling_busy_is_fatal.
  - intros h. eapply Forall_impl; [apply handlers_serve_once|].
    intros hd Hhd env skreqp d. destruct (Hhd env skreqp d) as (? & ? & _).
    by split.
  - apply poll_busy_is_fatal.
  - apply startup_trace.
Qed.

(** ** C3: one copy-out and one release per recognised request *)

(** A recognised operation code selects one of the twelve handlers. *)
Lemma switch_selects_handler T h skreqp d :
  stub_op_code d ∈ dispatch_table T ->
  exists hd, hd ∈ handlers T h /\
             TsSockSkelDaemon_switch T h skreqp d = hd skreqp d.
Proof.
  intros Hin. unfold TsSockSkelDaemon_switch.
  repeat case Z.eqb_spec; intros.
  all: try (eexists; split; [|reflexivity]; unfold handlers;
            repeat first [apply list_elem_of_here | apply list_elem_of_further];
            fail).
  exfalso. unfold dispatch_table in Hin.
  repeat (apply elem_of_cons in Hin as [Hin|Hin]; [done|]).
  by apply elem_of_nil in Hin.
Qed.

(** C3: when the worker serves a descriptor whose operation code is in the
    dispatch table, then on every path (allocation failure included) the
    descriptor is presented for copy-out exactly once (one PUTRES
    invocation) and afterwards released to the pool exactly once, and no
    other descriptor is released.  The only runs that do not get that far
    are those the BUSY assertion halts: they end at the BUSY answer, with
    at most one copy-out made and nothing released. *)
Theorem recognized_request_served_once T h env skreqp d :
  stub_op_code d ∈ dispatch_table T ->
  served_once T skreqp env (TsSockSkelDaemon_switch T h skreqp d).
Proof.
  intros Hin.
  destruct (switch_selects_handler T h skreqp d Hin) as (hd & Hhd & ->).
  by eapply handler_serves_once.
Qed.

Lemma recognized_request_served_once_witness :
  served_once sample_target 1 (sample_env 0 5 0 false)
    (TsSockSkelDaemon_switch sample_target 7 1
       (sample_req (STUB_OP_RECV sample_target) 3 0 1024 0 0)).
Proof.
  apply recognized_request_served_once.
  vm_compute. repeat first [apply list_elem_of_here | apply list_elem_of_further].
Defined.

(** ** C2: unrecognised operation codes *)

(** C2 (what the code does): when the descriptor a worker receives has an
    operation code without a case in the [switch], the turn of the loop
    makes no further call at all: no handler runs, no invocation delivers a
    result, and the descriptor is not returned to the pool either. *)
Theorem unrecognized_request_is_not_released
  (T : target) (h : Z) (env : oracle) (skreqp : nat) (d : skel_req_t) :
  env _ [] chFifoReceiveObjectTimeout = (skreqp, d) ->
  stub_op_code d ∉ dispatch_table T ->
  trace_of env (TsSockSkelDaemon_iter T h)
    = [Obs chFifoReceiveObjectTimeout (skreqp, d)] /\
  outcome_of env (TsSockSkelDaemon_iter T h) = Done tt /\
  count_if is_invocation (trace_of env (TsSockSkelDaemon_iter T h)) = 0%nat /\
  count_if is_any_release (trace_of env (TsSockSkelDaemon_iter T h)) = 0%nat.
Proof.
  intros Henv Hnot.
  assert (TsSockSkelDaemon_switch T h skreqp d = Ret tt) as Hsw.
  { unfold TsSockSkelDaemon_switch, dispatch_table in *.
    repeat case Z.eqb_spec; intros; try reflexivity.
    all: exfalso; apply Hnot.
    all: match goal with H : stub_op_code _ = _ |- _ => rewrite H end.
    all: repeat first [ apply list_elem_of_here
                      | apply list_elem_of_further ]. }
  unfold trace_of, outcome_of, TsSockSkelDaemon_iter. cbn.
  rewrite Henv, Hsw. cbn. done.
Qed.

Lemma unrecognized_request_is_not_released_witness :
  trace_of (sample_env 0 0 0 false) (TsSockSkelDaemon_iter sample_target 7)
    = [Obs chFifoReceiveObjectTimeout (0%nat, sample_req 99 0 0 0 0 0)] /\
  outcome_of (sample_env 0 0 0 false) (TsSockSkelDaemon_iter sample_target 7)
    = Done tt /\
  count_if is_invocation
    (trace_of (sample_env 0 0 0 false) (TsSockSkelDaemon_iter sample_target 7))
    = 0%nat /\
  count_if is_any_release
    (trace_of (sample_env 0 0 0 false) (TsSockSkelDaemon_iter sample_target 7))
    = 0%nat.
Proof.
  apply (unrecognized_request_is_not_released sample_target 7
           (sample_env 0 0 0 false) 0%nat (sample_req 99 0 0 0 0 0)).
  - reflexivity.
  - vm_compute. intros Hin.
    repeat (apply elem_of_cons in Hin as [Hin|Hin]; [discriminate|]).
    by apply elem_of_nil in Hin.
Defined.


(** ** Shapes of traces *)

(** Solve an equation between a trace and its announced shape, taking the
    answers from the trace. *)
Ltac shape :=
  unfold copy_out_calls, copy_in_calls; cbn;
  repeat first [ apply (f_equal2 cons); [reflexivity|]
               | progress (known_tests; cbn) ];
  try reflexivity.

(** ** C5: allocation failure in the receive handler *)

(** C5: when [chHeapAlloc] returns NULL in [l_recv], the handler makes no
    call to the stack and frees nothing; it goes through [returnToRemote]
    with result ENOMEM, presenting the descriptor with parameter slot 1 and
    size field 1 as they came in; the run ends normally unless the peer
    answers BUSY to that invocation. *)
Theorem recv_alloc_failure_returns_enomem
  (T : target) (h : Z) (env : oracle) (skreqp : nat) (d : skel_req_t) :
  env Z [] (chHeapAlloc (stub_op_p d 2)) = NULL ->
  exists r back,
    let sent :=
      set_req (SKEL_REQ_PUTRES T) (set_result (to_uint32 (ENOMEM T)) d) in
    trace_of env (l_recv T h skreqp d) =
      Obs (chHeapAlloc (stub_op_p d 2)) NULL
      :: copy_out_calls T h skreqp sent r back [] /\
    outcome_of env (l_recv T h skreqp d) =
      (if r =? SMC_SVC_BUSY T then Halted "Unexpected SMC_SVC_BUSY"
       else Done tt) /\
    stub_op_result sent = to_uint32 (ENOMEM T) /\
    (0 <= ENOMEM T < 2 ^ 32 -> stub_op_result sent = ENOMEM T) /\
    stub_op_p sent 1 = stub_op_p d 1 /\
    stub_op_p_sz sent 1 = stub_op_p_sz d 1.
Proof.
  intros Hnull. unfold trace_of, outcome_of. cbn. rewrite Hnull. cbn.
  run_all env; eexists _, _; (split; [shape|]).
  all: repeat split; known_tests; auto using to_uint32_small.
Qed.

Lemma recv_alloc_failure_returns_enomem_witness :
  exists r back,
    trace_of (sample_env 0 5 0 false)
      (l_recv sample_target 7 1 (sample_req 3 3 0 1024 0 0)) =
    Obs (chHeapAlloc 1024) NULL
    :: copy_out_calls sample_target 7 1
         (set_req 3 (set_result 12 (sample_req 3 3 0 1024 0 0))) r back [].
Proof.
  destruct (recv_alloc_failure_returns_enomem sample_target 7
              (sample_env 0 5 0 false) 1 (sample_req 3 3 0 1024 0 0))
    as (r & back & Htr & _).
  - reflexivity.
  - exists r, back. exact Htr.
Defined.

(** ** C7: the receive handler when the allocation succeeds *)

(** C7: when [chHeapAlloc] returns a buffer, [l_recv] has allocated the
    requested length (slot 2), calls [recv] with the descriptor (slot 0),
    that buffer, that length and the flags (slot 3), stores what [recv]
    returned in size field 1 and the address of the buffer in slot 1,
    delivers what [recv] returned as result, and frees the buffer only
    after [returnToRemote] has returned.  The values are stored as 32-bit
    words; read back as [int] they are what [recv] returned. *)
Theorem recv_success
  (T : target) (h : Z) (env : oracle) (skreqp : nat) (d : skel_req_t) :
  env Z [] (chHeapAlloc (stub_op_p d 2)) <> NULL ->
  let fd := to_int (stub_op_p d 0) in
  let len := stub_op_p d 2 in
  let flags := to_int (stub_op_p d 3) in
  let mem := env Z [] (chHeapAlloc len) in
  exists n r back,
    let sent :=
      set_req (SKEL_REQ_PUTRES T)
        (set_result (to_uint32 n)
           (set_p 1 mem (set_p_sz 1 (to_uint32 n) d))) in
    trace_of env (l_recv T h skreqp d) =
      [Obs (chHeapAlloc len) mem; Obs (net (N_recv fd mem len flags)) n]
      ++ copy_out_calls T h skreqp sent r back [Obs (chHeapFree mem) tt] /\
    outcome_of env (l_recv T h skreqp d) =
      (if r =? SMC_SVC_BUSY T then Halted "Unexpected SMC_SVC_BUSY"
       else Done tt) /\
    stub_op_p_sz sent 1 = to_uint32 n /\
    stub_op_p sent 1 = mem /\
    stub_op_result sent = to_uint32 n /\
    (- 2 ^ 31 <= n < 2 ^ 31 ->
     to_int (stub_op_p_sz sent 1) = n /\ to_int (stub_op_result sent) = n).
Proof.
  intros Hmem fd len flags mem. apply Z.eqb_neq in Hmem.
  run_all env; eexists _, _, _; (split; [shape|]).
  all: repeat split; known_tests; auto using to_int_to_uint32.
Qed.

Lemma recv_success_witness :
  exists n r back,
    trace_of (sample_env 4096 5 0 false)
      (l_recv sample_target 7 1 (sample_req 3 3 0 1024 0 0)) =
    [Obs (chHeapAlloc 1024) 0x20001000;
     Obs (net (N_recv 3 0x20001000 1024 0)) n]
    ++ copy_out_calls sample_target 7 1
         (set_req 3
            (set_result (to_uint32 n)
               (set_p 1 0x20001000
                  (set_p_sz 1 (to_uint32 n) (sample_req 3 3 0 1024 0 0)))))
         r back [Obs (chHeapFree 0x20001000) tt].
Proof.
  destruct (recv_success sample_target 7 (sample_env 4096 5 0 false) 1
              (sample_req 3 3 0 1024 0 0))
    as (n & r & back & Htr & _).
  - vm_compute. discriminate.
  - exists n, r, back. exact Htr.
Defined.

(** ** C8: the sockaddr of connect and bind *)

(** C8: [l_connect] and [l_bind] present the descriptor for copy-in with
    the address of their local [struct sockaddr] in slot 1 and with size
    field 1 as it came in, whatever its value; the length they pass to
    [connect] and [bind] is slot 2 of the descriptor as it came in, not as
    the copy-in invocation left it. *)
Theorem connect_bind_copy_in_size_unchecked
  (T : target) (h : Z) (env : oracle) (skreqp : nat) (d : skel_req_t) :
  (exists r back n r' back',
      let sent :=
        set_req (SKEL_REQ_CPYPRMS T) (set_p 1 (addr_of T connect_sockaddr) d) in
      trace_of env (l_connect T h skreqp d) =
        copy_in_calls T h skreqp sent r back
          (Obs (net (N_connect (to_int (stub_op_p d 0))
                               (addr_of T connect_sockaddr)
                               (to_int (stub_op_p d 2)))) n
           :: copy_out_calls T h skreqp
                (set_req (SKEL_REQ_PUTRES T) (set_result (to_uint32 n) back))
                r' back' []) /\
      stub_op_p sent 1 = addr_of T connect_sockaddr /\
      stub_op_p_sz sent 1 = stub_op_p_sz d 1) /\
  (exists r back n r' back',
      let sent :=
        set_req (SKEL_REQ_CPYPRMS T) (set_p 1 (addr_of T bind_sockaddr) d) in
      trace_of env (l_bind T h skreqp d) =
        copy_in_calls T h skreqp sent r back
          (Obs (net (N_bind (to_int (stub_op_p d 0))
                            (addr_of T bind_sockaddr)
                            (to_int (stub_op_p d 2)))) n
           :: copy_out_calls T h skreqp
                (set_req (SKEL_REQ_PUTRES T) (set_result (to_uint32 n) back))
                r' back' []) /\
      stub_op_p sent 1 = addr_of T bind_sockaddr /\
      stub_op_p_sz sent 1 = stub_op_p_sz d 1).
Proof.
  split.
  all: run_all env; eexists _, _, _, _, _; (split; [shape|]); done.
  Unshelve. all: first [exact 0 | exact zero_req].
Qed.

(** A run of [l_connect]: the peer announces 4096 bytes for a sockaddr of
    16 bytes and overwrites slot 2 during the copy-in; the copy-in carries
    the 4096, and [connect] is called with the length 16 read before. *)
Example connect_oversized_copy_in :
  exists sent back n r' back',
    trace_of (sample_env 0 0 0 true)
      (l_connect sample_target 7 1 (sample_req 1 3 0 16 0 4096)) =
    copy_in_calls sample_target 7 1 sent 0 back
      (Obs (net (N_connect 3 0x20003000 16)) n
       :: copy_out_calls sample_target 7 1
            (set_req 3 (set_result (to_uint32 n) back)) r' back' []) /\
    stub_op_p_sz sent 1 = 4096 /\
    sizeof_local sample_target connect_sockaddr = 16 /\
    stub_op_p back 2 = 0xbeef.
Proof. eexists _, _, _, 0, _. split; [shape|done]. Qed.

(** ** C9: when the buffers are freed *)

(** C9: when the allocation succeeds, [l_send] and [l_write] free the
    buffer before the copy-out invocation; they do not write slot 1 after
    the copy-in, so the descriptor presented for copy-out carries in slot 1
    the address of the freed buffer (as long as the peer left slot 1 alone
    during the copy-in).  [l_recv] and [l_read] free the buffer after
    [returnToRemote] has returned. *)
Theorem send_write_free_before_copy_out
  (T : target) (h : Z) (env : oracle) (skreqp : nat) (d : skel_req_t) :
  env Z [] (chHeapAlloc (stub_op_p d 2)) <> NULL ->
  let size := stub_op_p d 2 in
  let buf := env Z [] (chHeapAlloc size) in
  (exists r back n r' back',
      let sent := set_req (SKEL_REQ_CPYPRMS T) (set_p 1 buf d) in
      let sent' :=
        set_req (SKEL_REQ_PUTRES T) (set_result (to_uint32 n) back) in
      trace_of env (l_send T h skreqp d) =
        Obs (chHeapAlloc size) buf
        :: copy_in_calls T h skreqp sent r back
             ([Obs (net (N_send (to_int (stub_op_p back 0)) buf size
                                (to_int (stub_op_p back 3)))) n;
               Obs (chHeapFree buf) tt]
              ++ copy_out_calls T h skreqp sent' r' back' []) /\
      stub_op_p sent' 1 = stub_op_p back 1 /\
      (stub_op_p back 1 = stub_op_p sent 1 -> stub_op_p sent' 1 = buf)) /\
  (exists r back n r' back',
      let sent := set_req (SKEL_REQ_CPYPRMS T) (set_p 1 buf d) in
      let sent' :=
        set_req (SKEL_REQ_PUTRES T) (set_result (to_uint32 n) back) in
      trace_of env (l_write T h skreqp d) =
        Obs (chHeapAlloc size) buf
        :: copy_in_calls T h skreqp sent r back
             ([Obs (net (N_write (to_int (stub_op_p back 0)) buf size)) n;
               Obs (chHeapFree buf) tt]
              ++ copy_out_calls T h skreqp sent' r' back' []) /\
      stub_op_p sent' 1 = stub_op_p back 1 /\
      (stub_op_p back 1 = stub_op_p sent 1 -> stub_op_p sent' 1 = buf)) /\
  (exists n sent r back,
      trace_of env (l_recv T h skreqp d) =
        [Obs (chHeapAlloc size) buf;
         Obs (net (N_recv (to_int (stub_op_p d 0)) buf size
                          (to_int (stub_op_p d 3)))) n]
        ++ copy_out_calls T h skreqp sent r back [Obs (chHeapFree buf) tt] /\
      stub_op_p sent 1 = buf) /\
  (exists n sent r back,
      trace_of env (l_read T h skreqp d) =
        [Obs (chHeapAlloc size) buf;
         Obs (net (N_read (to_int (stub_op_p d 0)) buf size)) n]
        ++ copy_out_calls T h skreqp sent r back [Obs (chHeapFree buf) tt] /\
      stub_op_p sent 1 = buf).
Proof.
  intros Hbuf size buf. apply Z.eqb_neq in Hbuf.
  split; [|split; [|split]].
  1,2: run_all env; eexists _, _, _, _, _; (split; [shape|]);
       (split; [done|]); cbn; intros ->; reflexivity.
  1,2: run_all env; eexists _, _, _, _; (split; [shape|]); reflexivity.
  Unshelve. all: first [exact 0 | exact zero_req].
Qed.

Lemma send_write_free_before_copy_out_witness :
  exists r back n r' back',
    trace_of (sample_env 4096 5 0 false)
      (l_send sample_target 7 1 (sample_req 4 3 0 1024 0 0)) =
    Obs (chHeapAlloc 1024) 0x20001000
    :: copy_in_calls sample_target 7 1
         (set_req 2 (set_p 1 0x20001000 (sample_req 4 3 0 1024 0 0)))
         r back
         ([Obs (net (N_send (to_int (stub_op_p back 0)) 0x20001000 1024
                            (to_int (stub_op_p back 3)))) n;
           Obs (chHeapFree 0x20001000) tt]
          ++ copy_out_calls sample_target 7 1
               (set_req 3 (set_result (to_uint32 n) back)) r' back' []).
Proof.
  destruct (send_write_free_before_copy_out sample_target 7
              (sample_env 4096 5 0 false) 1 (sample_req 4 3 0 1024 0 0))
    as [(r & back & n & r' & back' & Htr & _) _].
  - vm_compute. discriminate.
  - exists r, back, n, r', back'. exact Htr.
Defined.

(** ** C10: the marshalling targets of getaddrinfo *)

(** C10: [l_getaddrinfo] presents the descriptor for copy-in with the
    addresses of its one-byte locals [nodename] and [servname] in slots 0
    and 1, the address of its local [hints] in slot 2 and the address of
    its local [res] in slot 3; it sets size field 3 to the size of a
    pointer and leaves every other size field as it came in. *)
Theorem getaddrinfo_copy_in_targets
  (T : target) (h : Z) (env : oracle) (skreqp : nat) (d : skel_req_t) :
  exists sent r back n r' back',
    trace_of env (l_getaddrinfo T h skreqp d) =
      copy_in_calls T h skreqp sent r back
        (Obs (net (N_getaddrinfo (addr_of T getaddrinfo_nodename)
                                 (addr_of T getaddrinfo_servname)
                                 (addr_of T getaddrinfo_hints)
                                 (addr_of T getaddrinfo_res))) n
         :: copy_out_calls T h skreqp
              (set_req (SKEL_REQ_PUTRES T) (set_result (to_uint32 n) back))
              r' back' []) /\
    req sent = SKEL_REQ_CPYPRMS T /\
    (stub_op_p sent 0 = addr_of T getaddrinfo_nodename /\
     sizeof_local T getaddrinfo_nodename = 1) /\
    (stub_op_p sent 1 = addr_of T getaddrinfo_servname /\
     sizeof_local T getaddrinfo_servname = 1) /\
    stub_op_p sent 2 = addr_of T getaddrinfo_hints /\
    stub_op_p sent 3 = addr_of T getaddrinfo_res /\
    stub_op_p_sz sent 3 = sizeof_pointer T /\
    (forall i, i <> 3%nat -> stub_op_p_sz sent i = stub_op_p_sz d i).
Proof.
  run_all env; eexists _, _, _, _, _, _; (split; [shape|]).
  all: repeat split; cbn; try reflexivity.
  all: intros i Hi; unfold upd; by destruct (Nat.eqb_spec i 3).
  Unshelve. all: first [exact 0 | exact zero_req].
Qed.

(** ** C4: copy-in, then the primitive, then copy-out *)

(** The monitor refuses a primitive called before the copy-in or before
    the copy-in is complete, and a copy-out made between the copy-in and the
    primitive. *)
Example marshal_order_refuses_early_call :
  let copy_in :=
    Obs (tsInvokeServiceNoYield 7 1 (set_req 2 zero_req)) (0, zero_req) in
  let copy_out :=
    Obs (tsInvokeServiceNoYield 7 1 (set_req 3 zero_req)) (0, zero_req) in
  let unlock := Obs chMtxUnlock tt in
  let primitive := Obs (net (N_close 3)) 0 in
  marshal_order sample_target 1 Fresh
    [primitive; copy_in; unlock; copy_out] = None /\
  marshal_order sample_target 1 Fresh
    [copy_in; primitive; unlock; copy_out] = None /\
  marshal_order sample_target 1 Fresh
    [copy_in; unlock; copy_out; primitive] = None /\
  marshal_order sample_target 1 Fresh
    [copy_in; unlock; primitive; copy_out; unlock] = Some (Returned true).
Proof. repeat split. Qed.

(** C4: in every run of the handlers of the operations with 'in'
    parameters (connect, bind, send, write, select, getaddrinfo,
    freeaddrinfo), the primitive of the stack is called only after the
    copy-in for the descriptor is complete, and the copy-out
    invocation is made only after the primitive has returned, or without
    any copy-in and primitive at all; a run that ends normally has gone
    through copy-in, primitive and copy-out in this order, unless the
    allocation of the buffer failed, in which case it has made the copy-out
    alone. *)
Theorem copy_in_then_primitive_then_copy_out (T : target) (h : Z) :
  Forall (fun hd => forall (env : oracle) (skreqp : nat) (d : skel_req_t),
            match marshal_order T skreqp Fresh (trace_of env (hd skreqp d))
            with
            | None => False
            | Some ph =>
                outcome_of env (hd skreqp d) = Done tt ->
                ph = Returned
                       (negb (existsb alloc_failed
                                (trace_of env (hd skreqp d))))
            end)
         (handlers_with_in T h).
Proof.
  repeat apply Forall_cons_2; [..|apply Forall_nil_2]; intros env skreqp d.
  all: run_all env; requests_simpl T; done.
Qed.

(** ** The thread system at work *)

(** Extend a reachable state [H] by one step of thread [i]. *)
Ltac sys_step H i tac :=
  eapply reachable_step in H;
  [ | eapply (step_thread _ i);
      [reflexivity | reflexivity | cbn; unfold chDbgAssert; cbn; tac] ];
  cbn in H.

(** A call other than an invocation, answered [x]. *)
Ltac sys_event H i x :=
  sys_step H i
    ltac:(split; [reflexivity|]; exists x; split;
          [ first [ reflexivity
                  | split; reflexivity
                  | eexists [], _; split; reflexivity
                  | eexists _; split; reflexivity ]
          | reflexivity ]).

(** Entering the invocation primitive, and leaving it with answer [x]. *)
Ltac sys_call H i := sys_step H i ltac:(split; reflexivity).
Ltac sys_ret H i x :=
  sys_step H i ltac:(split; [reflexivity|]; exists x; reflexivity).

(** Going on at the next label. *)
Ltac sys_next H i :=
  sys_step H i ltac:(split; [reflexivity|]; split; reflexivity).

(** The startup, then one turn of the polling loop that fetches an
    operation with code [op] and posts it, then the first worker fetching
    it from the mailbox and getting to its [switch]. *)
Ltac sys_fetch H op :=
  sys_event H 2%nat tt;                      (* chEvtRegisterMaskWithFlags *)
  sys_call H 2%nat; sys_ret H 2%nat 4096;    (* discovery *)
  sys_event H 2%nat tt;                      (* tsStubsService = ... *)
  sys_event H 2%nat (0%nat, zero_req);       (* chFifoTakeObjectTimeout *)
  sys_call H 2%nat; sys_ret H 2%nat (0, zero_req);   (* READY *)
  sys_event H 2%nat tt;                      (* chFifoReturnObject *)
  sys_next H 2%nat;
  sys_event H 2%nat 1;                       (* chEvtWaitAny *)
  sys_event H 2%nat 1;                       (* chEvtGetAndClearFlags *)
  sys_next H 2%nat;
  sys_event H 2%nat (0%nat, zero_req);       (* chFifoTakeObjectTimeout *)
  sys_event H 2%nat tt;                      (* chMtxLock *)
  sys_call H 2%nat; sys_ret H 2%nat (0, sample_req op 2 1 6 0 0);  (* GETOP *)
  sys_event H 2%nat tt;                      (* chMtxUnlock *)
  sys_event H 2%nat tt;                      (* chFifoSendObject *)
  sys_next H 2%nat;
  sys_event H 0%nat (0%nat, sample_req op 2 1 6 0 0);  (* worker 0 receives *)
  sys_next H 0%nat.

(** The threads do get to work: the first worker reaches the copy-out
    invocation of a [socket] operation, inside the primitive and owning the
    mutex, with the descriptor it serves neither in the pool nor in the
    mailbox. *)
Example worker_reaches_copy_out :
  exists s t,
    reachable sample_target (tsSkelsDaemonInit sample_target) s /\
    threads s !! 0%nat = Some t /\ incall t = true /\
    mtx (shared s) = Some 0%nat /\ mbox (shared s) = [] /\
    pool (shared s) = [(1%nat, zero_req)].
Proof.
  pose proof (reachable_refl sample_target (tsSkelsDaemonInit sample_target))
    as H.
  cbn in H. sys_fetch H 0.
  sys_event H 0%nat 5.        (* socket *)
  sys_event H 0%nat tt.       (* chMtxLock *)
  sys_call H 0%nat.           (* PUTRES *)
  eexists _, _. split; [exact H|]. repeat split.
Qed.

(** C2 in the thread system: after the first worker has fetched an
    operation with the unknown code 99 it is back at the top of its loop,
    and descriptor 0 is lost: not in the pool, not in the mailbox, and no
    thread is serving it. *)
Example unrecognized_request_leaks_slot :
  exists s,
    reachable sample_target (tsSkelsDaemonInit sample_target) s /\
    threads s !! 0%nat = Some (worker0 sample_target) /\
    threads s !! 1%nat = Some (worker0 sample_target) /\
    threads s !! 2%nat
      = Some {| code := block sample_target 4096 L_poll; incall := false |} /\
    mbox (shared s) = [] /\
    pool (shared s) = [(1%nat, zero_req)].
Proof.
  pose proof (reachable_refl sample_target (tsSkelsDaemonInit sample_target))
    as H.
  cbn in H. sys_fetch H 99.
  sys_next H 0%nat.           (* default: break *)
  eexists. split; [exact H|]. repeat split.
Qed.

(** * Further properties of the handlers and of the threads *)

(** ** What the handlers write into a descriptor *)

(** The monitor refuses a descriptor handed over with another operation
    code than it had. *)
Example kept_refuses_a_changed_code :
  ~ kept same_code zero_req
      [Obs (tsInvokeServiceNoYield 7 1 (sample_req 5 0 0 0 0 0))
           (0, zero_req)].
Proof. cbn. unfold same_code. cbn. intros [[=] _]. Qed.

(** X1: no handler writes the operation code of the descriptor: at every
    invocation and at the release the code is the one the descriptor came
    with or the one the peer left at the previous invocation. *)
Theorem handlers_keep_operation_code (T : target) (h : Z) :
  Forall (fun hd => forall (env : oracle) (skreqp : nat) (d : skel_req_t),
            kept same_code d (trace_of env (hd skreqp d)))
         (handlers T h).
Proof.
  repeat apply Forall_cons_2; [..|apply Forall_nil_2]; intros env skreqp d.
  all: run_all env; repeat split.
Qed.

(** X2: the handlers of socket, connect, close, send, bind, listen, write
    and freeaddrinfo write no size field: at every invocation and at the
    release all size fields are as the descriptor came with or as the peer
    left them at the previous invocation. *)
Theorem handlers_keep_size_fields (T : target) (h : Z) :
  Forall (fun hd => forall (env : oracle) (skreqp : nat) (d : skel_req_t),
            kept same_sizes d (trace_of env (hd skreqp d)))
         (handlers_keeping_sizes T h).
Proof.
  repeat apply Forall_cons_2; [..|apply Forall_nil_2]; intros env skreqp d.
  all: run_all env; repeat split.
Qed.

(** ** The heap *)

(** The monitor refuses a second [chHeapFree] of the same buffer and a
    [chHeapFree] of a buffer that was not allocated. *)
Example heap_after_refuses_double_free :
  heap_after []
    [Obs (chHeapAlloc 16) 0x20001000; Obs (chHeapFree 0x20001000) tt;
     Obs (chHeapFree 0x20001000) tt] = None /\
  heap_after [] [Obs (chHeapFree 0x20001000) tt] = None /\
  heap_after []
    [Obs (chHeapAlloc 16) 0x20001000; Obs (chHeapFree 0x20001000) tt]
    = Some [].
Proof. repeat split. Qed.


(** ** Results and invocations *)

Ltac delivered_simpl T :=
  unfold delivered, stack_answers; cbn;
  rewrite ?Nat.eqb_refl, ?Z.eqb_refl, ?(cpyprms_is_not_putres T); cbn.

(** X4: the result a handler delivers with the copy-out is what the
    primitive of the stack returned, converted to a 32-bit word and
    otherwise unchanged (error returns included); it is ENOMEM when the
    allocation of the buffer failed.  [l_freeaddrinfo], whose primitive
    returns nothing, always delivers 0. *)
Theorem results_are_forwarded (T : target) (h : Z) :
  Forall (fun hd => forall (env : oracle) (skreqp : nat) (d : skel_req_t),
            let tr := trace_of env (hd skreqp d) in
            delivered T skreqp tr =
              if existsb alloc_failed tr then [to_uint32 (ENOMEM T)]
              else to_uint32 <$> stack_answers tr)
         [l_socket T h; l_connect T h; l_close T h; l_recv T h; l_send T h;
          l_select T h; l_bind T h; l_listen T h; l_write T h; l_read T h;
          l_getaddrinfo T h] /\
  (forall (env : oracle) (skreqp : nat) (d : skel_req_t),
      let tr := trace_of env (l_freeaddrinfo T h skreqp d) in
      delivered T skreqp tr = (fun _ => 0) <$> stack_answers tr).
Proof.
  split.
  - repeat apply Forall_cons_2; [..|apply Forall_nil_2]; intros env skreqp d.
    all: run_all env; delivered_simpl T; known_tests; reflexivity.
  - intros env skreqp d. run_all env; delivered_simpl T; reflexivity.
Qed.

(** X5: a request costs one invocation of the peer when the operation has
    no 'in' parameter or when the allocation of its buffer failed, two
    otherwise (counted on runs that end normally); no run of a handler
    makes more than two. *)
Theorem invocations_per_request (T : target) (h : Z) :
  Forall (fun hd => forall (env : oracle) (skreqp : nat) (d : skel_req_t),
            outcome_of env (hd skreqp d) = Done tt ->
            count_if is_invocation (trace_of env (hd skreqp d)) = 1%nat)
         (handlers_without_in T h) /\
  Forall (fun hd => forall (env : oracle) (skreqp : nat) (d : skel_req_t),
            outcome_of env (hd skreqp d) = Done tt ->
            count_if is_invocation (trace_of env (hd skreqp d)) =
              if existsb alloc_failed (trace_of env (hd skreqp d))
              then 1%nat else 2%nat)
         (handlers_with_in T h) /\
  Forall (fun hd => forall (env : oracle) (skreqp : nat) (d : skel_req_t),
            (count_if is_invocation (trace_of env (hd skreqp d)) <= 2)%nat)
         (handlers T h).
Proof.
  split; [|split].
  all: repeat apply Forall_cons_2; [..|apply Forall_nil_2]; intros env skreqp d.
  all: run_all env; known_tests; cbn; try done; try lia.
Qed.

(** ** The handlers the claims do not describe *)

(** X6: [l_socket], [l_close] and [l_listen] call their primitive with the
    leading parameter slots read as [int] (three, one and two of them), do
    no copy-in, and go through [returnToRemote] with the descriptor as it
    came in but for the result and the request code. *)
Theorem plain_handlers_trace
  (T : target) (h : Z) (env : oracle) (skreqp : nat) (d : skel_req_t) :
  (exists n r back,
      trace_of env (l_socket T h skreqp d) =
        Obs (net (N_socket (to_int (stub_op_p d 0)) (to_int (stub_op_p d 1))
                           (to_int (stub_op_p d 2)))) n
        :: copy_out_calls T h skreqp
             (set_req (SKEL_REQ_PUTRES T) (set_result (to_uint32 n) d))
             r back []) /\
  (exists n r back,
      trace_of env (l_close T h skreqp d) =
        Obs (net (N_close (to_int (stub_op_p d 0)))) n
        :: copy_out_calls T h skreqp
             (set_req (SKEL_REQ_PUTRES T) (set_result (to_uint32 n) d))
             r back []) /\
  (exists n r back,
      trace_of env (l_listen T h skreqp d) =
        Obs (net (N_listen (to_int (stub_op_p d 0))
                           (to_int (stub_op_p d 1)))) n
        :: copy_out_calls T h skreqp
             (set_req (SKEL_REQ_PUTRES T) (set_result (to_uint32 n) d))
             r back []).
Proof.
  split; [|split].
  all: run_all env; eexists _, _, _; shape.
Qed.

(** X7: [l_select] presents the descriptor for copy-in with slots 1 to 4
    set to the addresses of its locals [readset], [writeset], [exceptset]
    and [timeout], and size fields 1 to 3 set to the size of an [fd_set];
    size field 4, the one of the timeout, and size field 0 stay as
    supplied.  [select] is called with slot 0 as it came in. *)
Theorem select_copy_in_targets
  (T : target) (h : Z) (env : oracle) (skreqp : nat) (d : skel_req_t) :
  exists sent r back n r' back',
    trace_of env (l_select T h skreqp d) =
      copy_in_calls T h skreqp sent r back
        (Obs (net (N_select (to_int (stub_op_p d 0))
                            (addr_of T select_readset)
                            (addr_of T select_writeset)
                            (addr_of T select_exceptset)
                            (addr_of T select_timeout))) n
         :: copy_out_calls T h skreqp
              (set_req (SKEL_REQ_PUTRES T) (set_result (to_uint32 n) back))
              r' back' []) /\
    req sent = SKEL_REQ_CPYPRMS T /\
    stub_op_p sent 0 = stub_op_p d 0 /\
    stub_op_p sent 1 = addr_of T select_readset /\
    stub_op_p sent 2 = addr_of T select_writeset /\
    stub_op_p sent 3 = addr_of T select_exceptset /\
    stub_op_p sent 4 = addr_of T select_timeout /\
    stub_op_p_sz sent 1 = sizeof_fd_set T /\
    stub_op_p_sz sent 2 = sizeof_fd_set T /\
    stub_op_p_sz sent 3 = sizeof_fd_set T /\
    stub_op_p_sz sent 0 = stub_op_p_sz d 0 /\
    stub_op_p_sz sent 4 = stub_op_p_sz d 4.
Proof.
  run_all env; eexists _, _, _, _, _, _; (split; [shape|]).
  all: repeat split.
  Unshelve. all: first [exact 0 | exact zero_req].
Qed.

(** X8: [l_read], with or without buffer.  When [chHeapAlloc] returns NULL
    it makes no call to the stack, frees nothing and delivers ENOMEM with
    the descriptor otherwise as it came in; when it returns a buffer,
    [read] is called with slot 0, the buffer and the length of slot 2,
    size field 1 and the result are what [read] returned, slot 1 is the
    buffer, and the buffer is freed after [returnToRemote] has
    returned. *)
Theorem read_with_and_without_buffer
  (T : target) (h : Z) (env : oracle) (skreqp : nat) (d : skel_req_t) :
  let len := stub_op_p d 2 in
  let mem := env Z [] (chHeapAlloc len) in
  exists n r back,
    let sent :=
      if mem =? NULL then
        set_req (SKEL_REQ_PUTRES T) (set_result (to_uint32 (ENOMEM T)) d)
      else
        set_req (SKEL_REQ_PUTRES T)
          (set_result (to_uint32 n)
             (set_p 1 mem (set_p_sz 1 (to_uint32 n) d))) in
    trace_of env (l_read T h skreqp d) =
      Obs (chHeapAlloc len) mem
      :: (if mem =? NULL then []
          else [Obs (net (N_read (to_int (stub_op_p d 0)) mem len)) n])
      ++ copy_out_calls T h skreqp sent r back
           (if mem =? NULL then [] else [Obs (chHeapFree mem) tt]) /\
    outcome_of env (l_read T h skreqp d) =
      (if r =? SMC_SVC_BUSY T then Halted "Unexpected SMC_SVC_BUSY"
       else Done tt).
Proof.
  intros len mem. subst len mem.
  run_all env; eexists _, _, _; (split; [shape|]); known_tests; try reflexivity.
  Unshelve. all: exact 0.
Qed.

(** X9: when [chHeapAlloc] returns NULL in [l_send] or [l_write], the
    handler makes no copy-in, no call to the stack and no [chHeapFree]; it
    delivers ENOMEM with the descriptor otherwise as it came in. *)
Theorem send_write_alloc_failure
  (T : target) (h : Z) (env : oracle) (skreqp : nat) (d : skel_req_t) :
  env Z [] (chHeapAlloc (stub_op_p d 2)) = NULL ->
  let sent :=
    set_req (SKEL_REQ_PUTRES T) (set_result (to_uint32 (ENOMEM T)) d) in
  (exists r back,
      trace_of env (l_send T h skreqp d) =
        Obs (chHeapAlloc (stub_op_p d 2)) NULL
        :: copy_out_calls T h skreqp sent r back []) /\
  (exists r back,
      trace_of env (l_write T h skreqp d) =
        Obs (chHeapAlloc (stub_op_p d 2)) NULL
        :: copy_out_calls T h skreqp sent r back []).
Proof.
  intros Hnull sent. subst sent.
  split; unfold trace_of; cbn; rewrite Hnull; cbn.
  all: run_all env; eexists _, _; shape.
Qed.

Lemma send_write_alloc_failure_witness :
  exists r back,
    trace_of (sample_env 0 5 0 false)
      (l_send sample_target 7 1 (sample_req 4 3 0 1024 0 0)) =
    Obs (chHeapAlloc 1024) NULL
    :: copy_out_calls sample_target 7 1
         (set_req 3 (set_result 12 (sample_req 4 3 0 1024 0 0))) r back [].
Proof.
  destruct (send_write_alloc_failure sample_target 7
              (sample_env 0 5 0 false) 1 (sample_req 4 3 0 1024 0 0))
    as [(r & back & Htr) _].
  - reflexivity.
  - exists r, back. exact Htr.
Defined.

(** ** The polling loop and the switch *)

(** X10: one turn of the polling loop of [TsSkelsDaemon] takes a
    descriptor from the pool and presents it with request GETOP under the
    mutex.  On NHND it gives the same descriptor back to the pool and
    leaves the loop; on any other status but BUSY it posts the same
    descriptor, as the peer left it, to the mailbox and goes on; on BUSY
    the assertion halts, with the mutex still taken. *)
Theorem poll_turn (T : target) (h : Z) (env : oracle) :
  exists skreqp d r back,
    trace_of env (TsSkelsDaemon_poll T h) =
      [Obs chFifoTakeObjectTimeout (skreqp, d); Obs chMtxLock tt;
       Obs (tsInvokeServiceNoYield h skreqp (set_req (SKEL_REQ_GETOP T) d))
           (r, back)]
      ++ (if r =? SMC_SVC_BUSY T then []
          else [Obs chMtxUnlock tt;
                if r =? SMC_SVC_NHND T
                then Obs (chFifoReturnObject skreqp back) tt
                else Obs (chFifoSendObject skreqp back) tt]) /\
    outcome_of env (TsSkelsDaemon_poll T h) =
      (if r =? SMC_SVC_BUSY T then Halted "Unexpected SMC_SVC_BUSY"
       else Done (negb (r =? SMC_SVC_NHND T))).
Proof.
  run_all env; eexists _, _, _, _; (split; [shape|]); known_tests; reflexivity.
Qed.

(** X11: when the twelve operation codes are pairwise distinct, the
    [switch] runs, for the code at a place of the dispatch table, the
    handler at the same place of the list of handlers: each code reaches
    its own handler. *)
Theorem switch_runs_the_handler_of_the_code
  (T : target) (h : Z) (skreqp : nat) (d : skel_req_t)
  (i : nat) (hd : nat -> skel_req_t -> prog unit) :
  NoDup (dispatch_table T) ->
  dispatch_table T !! i = Some (stub_op_code d) ->
  handlers T h !! i = Some hd ->
  TsSockSkelDaemon_switch T h skreqp d = hd skreqp d.
Proof.
  intros Hnd Hcode Hhd.
  assert (Hother : forall j c, dispatch_table T !! j = Some c ->
                     stub_op_code d = c -> j = i).
  { intros j c Hj <-. by eapply NoDup_lookup. }
  unfold TsSockSkelDaemon_switch.
  repeat (case Z.eqb_spec; [intros Heq|intros ?]).
  all: try (first [ pose proof (Hother 0%nat _ eq_refl Heq) as Hi
                  | pose proof (Hother 1%nat _ eq_refl Heq) as Hi
                  | pose proof (Hother 2%nat _ eq_refl Heq) as Hi
                  | pose proof (Hother 3%nat _ eq_refl Heq) as Hi
                  | pose proof (Hother 4%nat _ eq_refl Heq) as Hi
                  | pose proof (Hother 5%nat _ eq_refl Heq) as Hi
                  | pose proof (Hother 6%nat _ eq_refl Heq) as Hi
                  | pose proof (Hother 7%nat _ eq_refl Heq) as Hi
                  | pose proof (Hother 8%nat _ eq_refl Heq) as Hi
                  | pose proof (Hother 9%nat _ eq_refl Heq) as Hi
                  | pose proof (Hother 10%nat _ eq_refl Heq) as Hi
                  | pose proof (Hother 11%nat _ eq_refl Heq) as Hi ];
            subst i; cbn in Hhd; by inversion Hhd).
  exfalso. do 12 (destruct i as [|i]; [cbn in Hcode; congruence|]).
  discriminate.
Qed.

Lemma switch_runs_the_handler_of_the_code_witness :
  TsSockSkelDaemon_switch sample_target 7 1 (sample_req 9 3 0 64 0 0)
  = l_read sample_target 7 1 (sample_req 9 3 0 64 0 0).
Proof.
  apply (switch_runs_the_handler_of_the_code sample_target 7 1
           (sample_req 9 3 0 64 0 0) 9%nat).
  - unfold dispatch_table; cbn. by apply (bool_decide_unpack _).
  - reflexivity.
  - reflexivity.
Defined.

(** ** Where the descriptors are *)

(** Explore a program for its ownership discipline. *)
Ltac own_step :=
  match goal with
  | |- forall _ : unit, _ => intros []
  | |- forall _ : (_ * _)%type, _ => intros [? ?]
  | |- forall _, _ => intro
  | |- context [decide (Some ?p = Some ?p)] =>
      rewrite (decide_True (P := Some p = Some p)) by reflexivity
  | |- context [if negb (?a =? ?b) then _ else _] => destruct (Z.eqb_spec a b)
  | |- context [if (?a =? ?b) then _ else _] => destruct (Z.eqb_spec a b)
  | |- True => exact I
  | |- _ \/ _ => first [left; reflexivity | right; reflexivity]
  end.

Ltac own_all :=
  cbn; unfold chDbgAssert; repeat (own_step; cbn; unfold chDbgAssert).

Lemma block_owning T h l : owning (held_at l) (block T h l).
Proof.
  destruct l; try (own_all; fail).
  cbn [block held_at]. unfold TsSockSkelDaemon_switch.
  repeat case Z.eqb_spec; intros; own_all.
Qed.

Lemma startup_owning T :
  owning None (TsSkelsDaemon_startup T ;; mret L_wait).
Proof. own_all. Qed.

Lemma owned_lookup owns i own :
  owns !! i = Some own ->
  owned owns ≡ₚ option_list own ++ owned (<[i := None]> owns).
Proof.
  revert i. induction owns as [|o owns IH]; intros [|i] Hi; try done.
  - cbn in Hi. inversion Hi; subst. by destruct own.
  - cbn in Hi. specialize (IH i Hi). unfold owned in *. cbn.
    destruct o as [q|]; cbn; [|done]. rewrite IH.
    by rewrite Permutation_middle.
Qed.

Lemma owned_insert owns i own :
  (i < length owns)%nat ->
  owned (<[i := own]> owns) ≡ₚ option_list own ++ owned (<[i := None]> owns).
Proof.
  intros Hi.
  rewrite (owned_lookup (<[i := own]> owns) i own)
    by (by apply list_lookup_insert_eq).
  by rewrite list_insert_insert_eq.
Qed.

Lemma owned_replicate n : owned (replicate n None) = [].
Proof. induction n; [done|]. unfold owned in *. cbn. done. Qed.

Lemma NoDup_submseteq_inv (l k : list nat) : NoDup k -> l ⊆+ k -> NoDup l.
Proof.
  intros Hk [k' Hp]%submseteq_Permutation. rewrite Hp in Hk.
  by apply NoDup_app in Hk as [? _].
Qed.

Lemma Forall_submseteq_inv (P : nat -> Prop) (l k : list nat) :
  Forall P k -> l ⊆+ k -> Forall P l.
Proof.
  rewrite !Forall_forall. intros Hk Hsub x Hx. apply Hk.
  by eapply elem_of_submseteq.
Qed.

Lemma thread_step_owning T i g t g' t' owns own :
  owns !! i = Some own -> owning own (code t) ->
  thread_step T i g t g' t' ->
  exists own',
    owning own' (code t') /\
    descriptors g' (<[i := own']> owns) ⊆+ descriptors g owns.
Proof.
  intros Hi Ho. pose proof (lookup_lt_Some _ _ _ Hi) as Hlen.
  pose proof (owned_lookup owns i own Hi) as Hown.
  assert (Hsame : forall g'', pool g'' = pool g -> mbox g'' = mbox g ->
            descriptors g'' (<[i := own]> owns) ⊆+ descriptors g owns).
  { intros g'' Hp Hm. unfold descriptors. rewrite Hp, Hm.
    by rewrite list_insert_id. }
  unfold thread_step. destruct t as [p ic]; cbn in *.
  destruct p as [l|msg|X e k]; cbn in *.
  - intros (-> & -> & ->). exists (held_at l). split; [apply block_owning|].
    destruct Ho as [-> | ->]; [|by apply Hsame].
    unfold descriptors. rewrite Hown. solve_submseteq.
  - intros (-> & ->). exists own. split; [done|]. by apply Hsame.
  - destruct (is_invoke e) eqn:Hinv.
    + destruct ic.
      * intros (-> & x & ->). specialize (Ho x). exists own.
        split; [|by apply Hsame].
        destruct e; try discriminate; cbn in Ho; [|done].
        by destruct (decide (own = Some skreqp)).
      * intros (-> & ->). exists own. split; [done|]. by apply Hsame.
    + intros (-> & x & Heff & ->). specialize (Ho x).
      destruct (own_next e own x) as [own'|] eqn:Hnext; [|done].
      exists own'. split; [done|].
      destruct e; try discriminate; cbn in Heff, Hnext.
      all: try (inversion Hnext; subst own';
                match type of Heff with
                | _ /\ _ => destruct Heff as [? ->]
                | _ = _ => rewrite Heff
                end;
                by apply Hsame).
      all: unfold descriptors; rewrite (owned_insert owns i own') by done;
           rewrite Hown.
      all: repeat match goal with
                  | H : exists _, _ |- _ => destruct H
                  | H : _ /\ _ |- _ => destruct H
                  end; subst g'; cbn.
      all: destruct own as [q|];
           repeat match goal with
                  | H : context [decide (?a = ?b)] |- _ =>
                      destruct (decide (a = b))
                  end;
           try discriminate; inversion Hnext; subst; cbn.
      all: repeat match goal with
                  | H : pool _ = _ |- _ => rewrite H
                  | H : mbox _ = _ |- _ => rewrite H
                  | H : Some _ = Some _ |- _ => inversion H; subst; clear H
                  end.
      all: rewrite ?fmap_app, ?fmap_cons; cbn.
      all: solve_submseteq.
Qed.

Lemma ownership_step T s s' : ownership T s -> step T s s' -> ownership T s'.
Proof.
  intros (owns & Hall & Hnd & Hlt) Hstep.
  destruct Hstep as [i t g' t' s _ Hi Hts].
  destruct (Forall2_lookup_r _ _ _ _ _ Hall Hi) as (own & Hown & Ho).
  destruct (thread_step_owning T i _ _ _ _ owns own Hown Ho Hts)
    as (own' & Ho' & Hsub).
  exists (<[i := own']> owns). cbn. split; [|split].
  - by apply Forall2_insert.
  - by eapply NoDup_submseteq_inv.
  - by eapply Forall_submseteq_inv.
Qed.

Lemma init_ownership T : ownership T (tsSkelsDaemonInit T).
Proof.
  exists (replicate (N_SOCKSKEL_THD T) None ++ [None]).
  assert (Hd : descriptors (shared (tsSkelsDaemonInit T))
                 (replicate (N_SOCKSKEL_THD T) None ++ [None])
               = seq 0 (N_SOCKSKEL_THD T)).
  { unfold descriptors, owned. rewrite omap_app. cbn.
    fold (owned (replicate (N_SOCKSKEL_THD T) None)).
    rewrite owned_replicate, !app_nil_r.
    rewrite <-list_fmap_compose. apply list_fmap_id. }
  rewrite Hd. split; [|split].
  - apply Forall2_app.
    + apply Forall2_replicate. exact (block_owning T NULL L_worker).
    + repeat constructor. apply (startup_owning T).
  - apply NoDup_seq.
  - apply Forall_forall. intros p Hp%elem_of_seq. lia.
Qed.

Lemma reachable_ownership T s :
  reachable T (tsSkelsDaemonInit T) s -> ownership T s.
Proof.
  induction 1 as [|s s' _ IH Hstep]; [apply init_ownership|].
  by eapply ownership_step.
Qed.

Lemma NoDup_bounded_length (l : list nat) n :
  NoDup l -> Forall (fun p => (p < n)%nat) l -> (length l <= n)%nat.
Proof.
  intros Hnd Hlt. transitivity (length (seq 0 n)); [|by rewrite length_seq].
  apply submseteq_length.
  apply NoDup_submseteq; [done|]. intros x Hx. apply elem_of_seq.
  rewrite Forall_forall in Hlt. specialize (Hlt x Hx). lia.
Qed.

Lemma owning_presenting own t p :
  owning own (code t) -> presenting t = Some p -> own = Some p.
Proof.
  unfold presenting. destruct (code t) as [|?|X e k]; try done.
  destruct e; try done. destruct (incall t); [|done].
  intros Ho [= ->]. cbn in Ho. specialize (Ho (0, zero_req)).
  by destruct (decide (own = Some p)).
Qed.

Lemma owned_elem owns i p : owns !! i = Some (Some p) -> p ∈ owned owns.
Proof.
  intros Hi. rewrite (owned_lookup owns i (Some p) Hi). cbn. left.
Qed.

(** X12: in every state the threads created by [tsSkelsDaemonInit] can
    reach, no descriptor is twice in the pool and the mailbox; pool and
    mailbox together never hold more than N_SOCKSKEL_THD descriptors; a
    descriptor a thread is presenting to the peer is one of [skel_reqs]
    and is neither in the pool nor in the mailbox; and no two threads
    present the same descriptor. *)
Theorem descriptors_are_in_one_place (T : target) (s : sys) :
  reachable T (tsSkelsDaemonInit T) s ->
  NoDup ((pool (shared s)).*1 ++ (mbox (shared s)).*1) /\
  (length (pool (shared s)) + length (mbox (shared s))
     <= N_SOCKSKEL_THD T)%nat /\
  (forall i t p,
      threads s !! i = Some t -> presenting t = Some p ->
      (p < N_SOCKSKEL_THD T)%nat /\
      (p ∉ (pool (shared s)).*1) /\ (p ∉ (mbox (shared s)).*1)) /\
  (forall i j ti tj p,
      threads s !! i = Some ti -> threads s !! j = Some tj ->
      presenting ti = Some p -> presenting tj = Some p -> i = j).
Proof.
  intros (owns & Hall & Hnd & Hlt)%reachable_ownership.
  unfold descriptors in *.
  assert (Hheld : forall i t p, threads s !! i = Some t ->
                    presenting t = Some p -> owns !! i = Some (Some p)).
  { intros i t p Hi Hp.
    destruct (Forall2_lookup_r _ _ _ _ _ Hall Hi) as (own & Hown & Ho).
    by rewrite Hown, (owning_presenting own t p Ho Hp). }
  split; [|split; [|split]].
  - rewrite app_assoc in Hnd. by apply NoDup_app in Hnd as [? _].
  - pose proof (NoDup_bounded_length _ _ Hnd Hlt) as Hle.
    rewrite !length_app, !length_fmap in Hle. lia.
  - intros i t p Hi Hp. specialize (Hheld i t p Hi Hp).
    pose proof (owned_elem owns i p Hheld) as Hin.
    split; [|split].
    + rewrite Forall_forall in Hlt. apply Hlt.
      rewrite !elem_of_app. by right; right.
    + apply NoDup_app in Hnd as (_ & Hdisj & _). intros Hpool.
      apply (Hdisj p Hpool). rewrite elem_of_app. by right.
    + apply NoDup_app in Hnd as (_ & _ & Hnd).
      apply NoDup_app in Hnd as (_ & Hdisj & _). intros Hmbox.
      by apply (Hdisj p Hmbox).
  - intros i j ti tj p Hi Hj Hpi Hpj.
    pose proof (Hheld i ti p Hi Hpi) as Hoi.
    pose proof (Hheld j tj p Hj Hpj) as Hoj.
    apply NoDup_app in Hnd as (_ & _ & Hnd).
    apply NoDup_app in Hnd as (_ & _ & Hnd).
    destruct (decide (i = j)) as [|Hne]; [done|exfalso].
    rewrite (owned_lookup owns i (Some p) Hoi) in Hnd. cbn in Hnd.
    apply NoDup_cons in Hnd as [Hnotin _]. apply Hnotin.
    apply (owned_elem _ j). by rewrite list_lookup_insert_ne.
Qed.

Lemma descriptors_are_in_one_place_witness :
  (length (pool (shared (tsSkelsDaemonInit sample_target)))
   + length (mbox (shared (tsSkelsDaemonInit sample_target))) <= 2)%nat.
Proof.
  destruct (descriptors_are_in_one_place sample_target
              (tsSkelsDaemonInit sample_target) (reachable_refl _ _))
    as (_ & Hle & _).
  exact Hle.
Defined.

(** ** The service handle and the owner of the mutex *)









Lemma thread_step_mtx T i g t g' t' :
  thread_step T i g t g' t' ->
  mtx g' = mtx g \/ mtx g' = Some i \/ mtx g' = None.
Proof.
  unfold thread_step. destruct (code t) as [l|msg|X e k].
  - intros (_ & -> & _). by left.
  - intros (-> & _). by left.
  - destruct (is_invoke e) eqn:Hinv.
    + destruct (incall t); intros (-> & _); by left.
    + intros (_ & x & Heff & _).
      destruct e; try discriminate; cbn in Heff.
      all: first [ destruct Heff as (_ & ->); cbn; by auto
                 | destruct Heff as (? & ? & _ & ->); by left
                 | destruct Heff as (? & _ & ->); by left
                 | rewrite Heff; by left ].
Qed.

Lemma owner_exists_step T s s' :
  owner_exists s -> step T s s' -> owner_exists s'.
Proof.
  intros Hown Hstep. destruct Hstep as [i t g' t' s _ Hi Hts].
  intros j Hj. cbn in *.
  assert (Hlen : (i < length (threads s))%nat) by (by eapply lookup_lt_Some).
  destruct (decide (j = i)) as [->|Hne].
  - rewrite list_lookup_insert_eq by done. by eexists.
  - rewrite list_lookup_insert_ne by done. apply Hown.
    destruct (thread_step_mtx T i _ _ _ _ Hts) as [Hm|[Hm|Hm]];
      congruence.
Qed.

Lemma reachable_owner_exists T s :
  reachable T (tsSkelsDaemonInit T) s -> owner_exists s.
Proof.
  induction 1 as [|s s' _ IH Hstep]; [intros i; discriminate|].
  by eapply owner_exists_step.
Qed.

(** X14: a thread never waits while it owns the mutex.  In every reachable
    state the owner of tsStubsServiceMtx is one of the threads, what it is
    about to do is to enter or leave the invocation primitive, to give the
    mutex back, or to halt on the assertion, and it can do it: it is at no
    call that waits for the pool, the mailbox, the stack or an event. *)
Theorem mutex_owner_can_always_move (T : target) (s : sys) (i : nat) :
  reachable T (tsSkelsDaemonInit T) s ->
  mtx (shared s) = Some i ->
  exists t,
    threads s !! i = Some t /\
    next_action t <> A_other /\
    exists g' t', thread_step T i (shared s) t g' t'.
Proof.
  intros Hreach Hmtx.
  destruct (reachable_owner_exists T s Hreach i Hmtx) as [t Hi].
  exists t. split; [done|].
  destruct (reachable_invariant T s Hreach) as [(Hnone & _)|Hrun];
    [congruence|].
  destruct (Hrun i t Hi) as (st & Hser & Hst & Hat).
  assert (st <> Unlocked) as Hne by (intros Hu; by apply Hst in Hu).
  unfold next_action, thread_step. destruct t as [p ic]; cbn in *.
  destruct p as [l|msg|X e k]; cbn in *; [done| |].
  - split; [done|]. by eexists _, _.
  - destruct (lock_next e st) as [st'|] eqn:Hnext; [|done].
    destruct e; destruct st; try discriminate; try done; cbn.
    + (* about to give the mutex back *)
      split; [done|]. destruct ic; [by specialize (Hat eq_refl)|].
      eexists _, _. split; [done|]. exists tt. by repeat split.
    + (* at the invocation *)
      split; [done|]. destruct ic.
      * eexists _, _. split; [done|]. by exists (0, zero_req).
      * by eexists _, _.
    + split; [done|]. destruct ic.
      * eexists _, _. split; [done|]. by exists 0.
      * by eexists _, _.
Qed.

Lemma mutex_owner_can_always_move_witness :
  exists s t,
    mtx (shared s) = Some 2%nat /\ threads s !! 2%nat = Some t /\
    next_action t <> A_other.
Proof.
  pose proof (reachable_refl sample_target (tsSkelsDaemonInit sample_target))
    as H.
  cbn in H.
  sys_event H 2%nat tt.
  sys_call H 2%nat. sys_ret H 2%nat 4096.
  sys_event H 2%nat tt.
  sys_event H 2%nat (0%nat, zero_req).
  sys_call H 2%nat. sys_ret H 2%nat (0, zero_req).
  sys_event H 2%nat tt.
  sys_next H 2%nat.
  sys_event H 2%nat 1.
  sys_event H 2%nat 1.
  sys_next H 2%nat.
  sys_event H 2%nat (0%nat, zero_req).
  sys_event H 2%nat tt.
  match type of H with
  | reachable _ _ ?s =>
      destruct (mutex_owner_can_always_move sample_target s 2%nat H eq_refl)
        as (t & Ht & Hact & _);
      exists s, t
  end.
  repeat split; [exact Ht|exact Hact].
Defined.
